(** * Derived Anagram Finder: a shallow embedding of [derived_anagram.c]

    The development models the dictionary index (a chained hash table of
    heap-allocated [Word] records), the memoised depth-first search
    [longest_chain] and the enumeration pass [print_chains], and proves
    the properties of the specification about them.

    Modelling conventions.
    - A C string is the list of the values of its characters before the
      terminating NUL; a character is the [int] value it promotes to, so
      the comparisons [dest[j] > key] and [w->sorted[i] < c] are
      comparisons on [Z] whatever the signedness of [char].
    - A [Word *] is the index of the record in the heap; [malloc] hands
      out the next free index.  The [next] links of a bucket are the tail
      of the bucket's list of pointers.
    - [int] values are at most 256 in every state the program builds
      (words have fewer than [MAX_WORD] characters), so they are plain
      [Z]; the [unsigned long] of [hash] wraps modulo [2^64].
    - The character buffers [original], [sorted] and [new_sorted] are
      strings; the capacity [MAX_WORD] of the stored words is the
      invariant [wf_heap].  The model does not represent the capacity of
      the scratch buffer [new_sorted], which for a stored word of 255
      characters receives its terminator one place past the array.  The
      path buffer [chain] is an array of slots whose every access is
      bounds-checked by the model.
    - Recursion is driven by fuel: one unit per activation. *)

From Stdlib Require Import ZArith List Lia String Ascii.
From stdpp Require Import base list gmap sorting.

Local Open Scope Z_scope.

(** ** Data model *)

Abbreviation cstring := (list Z) (only parsing).

Definition MAX_WORD : Z := 256.
Definition HASH_SIZE : Z := 2000003.

Abbreviation ptr := nat (only parsing).

Module Word.
(** [struct Word]; the [next] field is the rest of the bucket list. *)
Record t : Type := mk {
  original : cstring;
  sorted : cstring;
  length : Z;
  dp : Z
}.
End Word.

(** Result of running a function of the program. [Fault] is an access
    outside an object (a dangling [Word *] or a path-buffer index out of
    range); [NoFuel] means the fuel did not cover the recursion. *)
Inductive result (A : Type) : Type :=
| Ret (a : A)
| Fault
| NoFuel.
Arguments Ret {A} a.
Arguments Fault {A}.
Arguments NoFuel {A}.

#[global] Instance result_ret : MRet result := fun _ a => Ret a.
#[global] Instance result_bind : MBind result := fun _ _ k m =>
  match m with
  | Ret a => k a
  | Fault => Fault
  | NoFuel => NoFuel
  end.

(** The state of the process: the heap of [Word] records, the global
    [hash_table], the chains written to the standard output (each one is
    printed as a line, its words joined by [->]) and a ghost counter of
    the successor candidates expanded by [longest_chain]. *)
Record State : Type := mkState {
  heap : list Word.t;
  hash_table : gmap Z (list ptr);
  output : list (list cstring);
  expansions : nat
}.

Definition initial : State :=
  {| heap := []; hash_table := ∅; output := []; expansions := 0 |}.

Definition bucket (st : State) (h : Z) : list ptr :=
  default [] (hash_table st !! h).

Definition read (st : State) (p : ptr) : result Word.t :=
  match heap st !! p with
  | Some w => Ret w
  | None => Fault
  end.

(** ** Hash function (DJB2) *)

Definition hash_step (h c : Z) : Z :=
  ((Z.shiftl h 5 + h) + c) mod 2 ^ 64.

Definition hash (str : cstring) : Z :=
  fold_left hash_step str 5381 mod HASH_SIZE.

(** ** [sort_string]: insertion sort *)

(** The inner [while] loop.  The prefix [dest[0..i-1]] is given from its
    last element to its first: every element greater than [key] moves one
    place to the right and [key] lands after the first element that is
    not greater. *)
Fixpoint shift_insert (key : Z) (rev_prefix : list Z) : list Z :=
  match rev_prefix with
  | x :: r => if x >? key then x :: shift_insert key r else key :: rev_prefix
  | [] => [key]
  end.

Definition sort_string (src : cstring) : cstring :=
  rev (fold_left (fun acc key => shift_insert key acc) src []).

(** ** [insert_word] and [find_word] *)

Definition insert_word (word : cstring) (st : State) : State :=
  let w := Word.mk word (sort_string word) (Z.of_nat (length word)) (-1) in
  let p := length (heap st) in
  let h := hash (Word.sorted w) in
  {| heap := heap st ++ [w];
     hash_table := <[h := p :: bucket st h]> (hash_table st);
     output := output st;
     expansions := expansions st |}.

Fixpoint find_in (hp : list Word.t) (key : cstring) (b : list ptr) : option ptr :=
  match b with
  | [] => None
  | p :: b' =>
      match hp !! p with
      | Some w => if decide (Word.sorted w = key) then Some p else find_in hp key b'
      | None => None
      end
  end.

Definition find_word (st : State) (key : cstring) : option ptr :=
  find_in (heap st) key (bucket st (hash key)).

(** ** Successor generation *)

(** The characters tried by both loops: [c = 33 .. 126]. *)
Definition printable : list Z := seqZ 33 94.

(** Merge insertion of [c] into a sorted string. *)
Fixpoint merge_insert (c : Z) (s : list Z) : list Z :=
  match s with
  | x :: s' => if x <? c then x :: merge_insert c s' else c :: s
  | [] => [c]
  end.

(** The contents of [new_sorted] for character [c]: the loops read
    [w->sorted[0 .. w->length - 1]]. *)
Definition new_sorted (w : Word.t) (c : Z) : cstring :=
  merge_insert c (take (Z.to_nat (Word.length w)) (Word.sorted w)).

(** ** [longest_chain] *)

Definition set_dp (p : ptr) (v : Z) (st : State) : State :=
  {| heap := alter (fun w => Word.mk (Word.original w) (Word.sorted w)
                               (Word.length w) v) p (heap st);
     hash_table := hash_table st;
     output := output st;
     expansions := expansions st |}.

Definition tick (st : State) : State :=
  {| heap := heap st; hash_table := hash_table st;
     output := output st; expansions := S (expansions st) |}.

(** One iteration of the [for] loop of [longest_chain]; [rec] is the
    recursive call. *)
Definition chain_step (rec : State → ptr → result (State * Z)) (p : ptr)
    (acc : result (State * Z)) (c : Z) : result (State * Z) :=
  '(st, max_len) ← acc;
  w ← read st p;
  let st := tick st in
  match find_word st (new_sorted w c) with
  | None => Ret (st, max_len)
  | Some next_word =>
      '(st', r) ← rec st next_word;
      let len := 1 + r in
      Ret (st', if len >? max_len then len else max_len)
  end.

Fixpoint longest_chain (fuel : nat) (st : State) (p : ptr) : result (State * Z) :=
  match fuel with
  | O => NoFuel
  | S fuel' =>
      w ← read st p;
      if decide (Word.dp w ≠ -1) then Ret (st, Word.dp w)
      else
        '(st', max_len) ← fold_left (chain_step (longest_chain fuel') p)
                             printable (Ret (st, 1));
        Ret (set_dp p max_len st', max_len)
  end.

(** ** [print_chains] *)

(** [strcpy(chain[depth], s)]. *)
Definition write_slot (chain : list cstring) (depth : Z) (s : cstring)
  : result (list cstring) :=
  if decide (0 ≤ depth < Z.of_nat (length chain))
  then Ret (<[Z.to_nat depth := s]> chain)
  else Fault.

(** The printing loop reads [chain[0 .. depth]]. *)
Definition emit (line : list cstring) (st : State) : State :=
  {| heap := heap st; hash_table := hash_table st;
     output := output st ++ [line]; expansions := expansions st |}.

Definition print_step (rec : State → ptr → list cstring → result (State * list cstring))
    (p : ptr) (max_len depth : Z)
    (acc : result (State * list cstring)) (c : Z) : result (State * list cstring) :=
  '(st, chain) ← acc;
  w ← read st p;
  match find_word st (new_sorted w c) with
  | None => Ret (st, chain)
  | Some next_word =>
      nw ← read st next_word;
      if decide (Word.dp nw = max_len - depth - 1)
      then rec st next_word chain
      else Ret (st, chain)
  end.

Fixpoint print_chains (fuel : nat) (st : State) (p : ptr) (max_len : Z)
    (chain : list cstring) (depth : Z) : result (State * list cstring) :=
  match fuel with
  | O => NoFuel
  | S fuel' =>
      w ← read st p;
      chain ← write_slot chain depth (Word.original w);
      if decide (depth + 1 = max_len)
      then Ret (emit (take (Z.to_nat (depth + 1)) chain) st, chain)
      else
        fold_left
          (print_step (fun st q ch => print_chains fuel' st q max_len ch (depth + 1))
             p max_len depth)
          printable (Ret (st, chain))
  end.

(** ** [main] *)

Definition load_dictionary (words : list cstring) : State :=
  fold_left (fun st word => insert_word word st) words initial.

(** The path buffer of [main]: [char chain[256][MAX_WORD]]. *)
Definition main_chain : list cstring := replicate 256 [].

(** The text of a printed line. *)
Definition render (line : list cstring) : cstring :=
  match line with
  | [] => [10]
  | w :: ws => w ++ flat_map (fun x => [45; 62] ++ x) ws ++ [10]
  end.

(** Characters of a Rocq string, for writing dictionaries down. *)
Fixpoint str (s : string) : cstring :=
  match s with
  | EmptyString => []
  | String a s' => Z.of_N (N_of_ascii a) :: str s'
  end.


(** ** Specification vocabulary *)

(** [dp] of the record at [p] ([-1] for a dangling pointer). *)
Definition dp_at (st : State) (p : ptr) : Z :=
  from_option Word.dp (-1) (heap st !! p).

(** Entries found by the 94 lookups made for [w], in loop order. *)
Definition succs (st : State) (w : Word.t) : list ptr :=
  omap (fun c => find_word st (new_sorted w c)) printable.

(** A transition of the index: [q] is the entry found for the canonical
    form of [p] with one printable character inserted. *)
Definition step (st : State) (p q : ptr) : Prop :=
  ∃ w c, heap st !! p = Some w ∧ c ∈ printable ∧
         find_word st (new_sorted w c) = Some q.

(** A chain of entries: consecutive entries are transitions. *)
Inductive chain_from (st : State) : ptr → list ptr → Prop :=
| chain_one p w : heap st !! p = Some w → chain_from st p [p]
| chain_cons p q l : step st p q → chain_from st q l → chain_from st p (p :: l).

(** [n] is the number of words of a longest chain starting at [p]. *)
Definition is_longest (st : State) (p : ptr) (n : Z) : Prop :=
  (∃ l, chain_from st p l ∧ Z.of_nat (length l) = n) ∧
  (∀ l, chain_from st p l → Z.of_nat (length l) ≤ n).

Definition max_list1 (l : list Z) : Z := foldr Z.max 1 l.

(** The value [longest_chain] stores for [w] when its successors are
    resolved. *)
Definition best (st : State) (w : Word.t) : Z :=
  max_list1 (map (fun q => 1 + dp_at st q) (succs st w)).

(** Length of the longest word of the dictionary. *)
Definition max_length (st : State) : Z :=
  foldr Z.max 0 (map Word.length (heap st)).

(** ** Invariants *)

(** Every record holds a word that fits its buffers, its canonical form
    and its length. *)
Definition wf_word (w : Word.t) : Prop :=
  Word.sorted w = sort_string (Word.original w) ∧
  Word.length w = Z.of_nat (length (Word.original w)) ∧
  Word.length w < MAX_WORD.

Definition wf_heap (st : State) : Prop := Forall wf_word (heap st).

(** Bucket [h] lists, most recent first, the records whose canonical form
    hashes to [h]. *)
Definition wf_table (st : State) : Prop :=
  ∀ h, StronglySorted (fun p q : nat => (q < p)%nat) (bucket st h) ∧
       ∀ p, p ∈ bucket st h ↔
            ∃ w, heap st !! p = Some w ∧ hash (Word.sorted w) = h.

(** A stored [dp] is the value of the loop over resolved successors. *)
Definition memo_ok (st : State) : Prop :=
  ∀ p w, heap st !! p = Some w → Word.dp w ≠ -1 →
         (∀ q, q ∈ succs st w → dp_at st q ≠ -1) ∧ Word.dp w = best st w.

Definition consistent (st : State) : Prop :=
  wf_heap st ∧ wf_table st ∧ memo_ok st.

(** [st'] has the index of [st]: same table, and at every address a
    record with the same word. *)
Definition same_entry (w w' : Word.t) : Prop :=
  Word.original w' = Word.original w ∧ Word.sorted w' = Word.sorted w ∧
  Word.length w' = Word.length w.

Definition same_index (st st' : State) : Prop :=
  hash_table st' = hash_table st ∧ Forall2 same_entry (heap st) (heap st').

(** [st'] is [st] after some resolution: same index, same output, and
    every [dp] already stored is kept. *)
Definition evolves (st st' : State) : Prop :=
  same_index st st' ∧ output st' = output st ∧
  (∀ x, dp_at st x ≠ -1 → dp_at st' x = dp_at st x) ∧
  (expansions st ≤ expansions st')%nat.

(** ** Strings *)

Lemma elem_of_printable c : c ∈ printable ↔ 33 ≤ c ≤ 126.
Proof. unfold printable. rewrite elem_of_seqZ. lia. Qed.

Lemma seqZ_increasing (n : nat) m : StronglySorted Z.lt (seqZ m (Z.of_nat n)).
Proof.
  revert m. induction n as [|n IH]; intros m.
  - rewrite seqZ_nil by lia. constructor.
  - rewrite seqZ_cons by lia.
    replace (Z.pred (Z.of_nat (S n))) with (Z.of_nat n) by lia.
    constructor; [apply IH|]. apply Forall_seqZ. intros; lia.
Qed.

Lemma printable_increasing : StronglySorted Z.lt printable.
Proof. exact (seqZ_increasing 94 33). Qed.

(** The loops run over [printable] as a whole; proofs never enumerate
    its 94 elements. *)
#[global] Opaque printable.

Lemma shift_insert_perm key l : shift_insert key l ≡ₚ key :: l.
Proof.
  induction l as [|x l IH]; simpl; [done|].
  destruct (x >? key); [|done].
  rewrite IH. apply Permutation_swap.
Qed.

Lemma sort_loop_perm src acc :
  fold_left (fun a key => shift_insert key a) src acc ≡ₚ src ++ acc.
Proof.
  revert acc. induction src as [|x src IH]; intros acc; simpl; [done|].
  rewrite IH, shift_insert_perm. by rewrite Permutation_middle.
Qed.

Lemma sort_string_perm src : sort_string src ≡ₚ src.
Proof.
  unfold sort_string. rewrite <- Permutation_rev, sort_loop_perm.
  by rewrite app_nil_r.
Qed.

Lemma sort_string_length src : length (sort_string src) = length src.
Proof. by rewrite sort_string_perm. Qed.

Lemma merge_insert_perm c s : merge_insert c s ≡ₚ c :: s.
Proof.
  induction s as [|x s IH]; simpl; [done|].
  destruct (x <? c); [|done].
  rewrite IH. apply Permutation_swap.
Qed.

Lemma merge_insert_length c s : length (merge_insert c s) = S (length s).
Proof. by rewrite merge_insert_perm. Qed.

Lemma merge_insert_inj c c' s : merge_insert c s = merge_insert c' s → c = c'.
Proof.
  intros E.
  assert (P : c :: s ≡ₚ c' :: s) by (by rewrite <- !merge_insert_perm, E).
  apply (Permutation_app_inv_r s [c] [c']) in P.
  by apply Permutation_singleton_l in P as [= ->].
Qed.

(** ** The index: [find_word] after [insert_word] *)

Lemma find_in_Some hp key b p :
  find_in hp key b = Some p →
  ∃ w, hp !! p = Some w ∧ Word.sorted w = key ∧ p ∈ b.
Proof.
  induction b as [|x b IH]; simpl; [done|].
  destruct (hp !! x) as [w|] eqn:E; [|done].
  case_decide as K.
  - intros [= <-]. exists w. split_and!; [done..|apply list_elem_of_here].
  - intros F. destruct (IH F) as (w' & ? & ? & ?).
    exists w'. split_and!; [done..|by apply list_elem_of_further].
Qed.

Lemma find_word_Some st key p :
  find_word st key = Some p →
  ∃ w, heap st !! p = Some w ∧ Word.sorted w = key.
Proof.
  intros F. apply find_in_Some in F as (w & ? & ? & ?). by exists w.
Qed.

Lemma find_in_newest hp key b p :
  StronglySorted (fun x y : nat => (y < x)%nat) b →
  find_in hp key b = Some p →
  ∀ p' w', p' ∈ b → hp !! p' = Some w' → Word.sorted w' = key → (p' ≤ p)%nat.
Proof.
  induction 1 as [|x b Srt IH All]; simpl; [done|].
  destruct (hp !! x) as [w|] eqn:E; [|done].
  case_decide as K.
  - intros [= <-] p' w' [->|In]%elem_of_cons _ _; [lia|].
    rewrite Forall_forall in All. specialize (All p' In). lia.
  - intros F p' w' [->|In]%elem_of_cons L Eq; [congruence|].
    by eapply IH.
Qed.

Lemma find_in_is_Some hp key b p' w' :
  (∀ p, p ∈ b → is_Some (hp !! p)) →
  p' ∈ b → hp !! p' = Some w' → Word.sorted w' = key →
  is_Some (find_in hp key b).
Proof.
  induction b as [|x b IH]; simpl; intros V In L Eq.
  - by apply elem_of_nil in In.
  - destruct (V x) as [w E]; [apply list_elem_of_here|]. rewrite E.
    case_decide; [by eexists|].
    apply elem_of_cons in In as [->|In]; [congruence|].
    apply IH; [|done..]. intros; by apply V, list_elem_of_further.
Qed.

(** [find_word] returns the most recently inserted record with the
    requested canonical form, and only that one. *)
Lemma find_word_spec st key p :
  wf_table st →
  find_word st key = Some p ↔
  ∃ w, heap st !! p = Some w ∧ Word.sorted w = key ∧
       ∀ p' w', heap st !! p' = Some w' → Word.sorted w' = key → (p' ≤ p)%nat.
Proof.
  intros T. destruct (T (hash key)) as [Srt M]. split.
  - intros F. pose proof F as (w & L & Eq & In)%find_in_Some.
    exists w. split_and!; [done..|]. intros p' w' L' Eq'.
    eapply (find_in_newest _ _ _ _ Srt F p' w'); [|done..].
    apply M. exists w'. split; [done|by rewrite Eq'].
  - intros (w & L & Eq & Max).
    destruct (find_in_is_Some (heap st) key (bucket st (hash key)) p w)
      as [q F]; [| |done..|].
    { intros x (wx & ? & _)%M. by eexists. }
    { apply M. exists w. split; [done|by rewrite Eq]. }
    unfold find_word. rewrite F. f_equal.
    pose proof F as (wq & Lq & Eqq & Inq)%find_in_Some.
    pose proof (Max q wq Lq Eqq).
    assert (p ∈ bucket st (hash key)) as Inp
      by (apply M; exists w; split; [done|by rewrite Eq]).
    pose proof (find_in_newest _ _ _ _ Srt F p w Inp L Eq). lia.
Qed.

Lemma find_word_None st key :
  wf_table st →
  find_word st key = None ↔
  ∀ p w, heap st !! p = Some w → Word.sorted w ≠ key.
Proof.
  intros T. destruct (T (hash key)) as [Srt M]. split.
  - intros F p w L Eq.
    destruct (find_in_is_Some (heap st) key (bucket st (hash key)) p w)
      as [q F']; [| |done..|].
    { intros x (wx & ? & _)%M. by eexists. }
    { apply M. exists w. split; [done|by rewrite Eq]. }
    unfold find_word in F. congruence.
  - intros N. destruct (find_word st key) as [p|] eqn:F; [|done].
    apply find_word_Some in F as (w & L & Eq). by destruct (N p w).
Qed.

Lemma bucket_insert_word word st h :
  bucket (insert_word word st) h =
  if decide (hash (sort_string word) = h)
  then length (heap st) :: bucket st h else bucket st h.
Proof.
  unfold bucket at 1, insert_word; simpl.
  case_decide as E.
  - subst h. by rewrite lookup_insert_eq.
  - by rewrite lookup_insert_ne.
Qed.

Lemma wf_table_initial : wf_table initial.
Proof.
  intros h. unfold bucket, initial; simpl. rewrite lookup_empty; simpl.
  split; [constructor|]. intros p; split.
  - by intros ?%elem_of_nil.
  - by intros (w & ? & _).
Qed.

Lemma wf_table_insert_word word st :
  wf_table st → wf_table (insert_word word st).
Proof.
  intros T h. destruct (T h) as [Srt M].
  assert (B : ∀ q, q ∈ bucket st h → (q < length (heap st))%nat).
  { intros q (w & L & _)%M. by eapply lookup_lt_Some. }
  rewrite bucket_insert_word. simpl. split.
  - case_decide; [|done]. constructor; [done|].
    apply Forall_forall. intros q In. by apply B.
  - intros p. case_decide as E.
    + rewrite elem_of_cons, M. split.
      * intros [->|(w & L & H)].
        -- eexists. by rewrite lookup_app_r, Nat.sub_diag by lia.
        -- exists w. split; [|done]. by apply lookup_app_l_Some.
      * intros (w & L & H).
        destruct (decide (p < length (heap st))%nat) as [Lt|Ge].
        -- right. exists w. by rewrite lookup_app_l in L.
        -- left. apply lookup_lt_Some in L. rewrite length_app in L.
           simpl in L. lia.
    + rewrite M. split.
      * intros (w & L & H). exists w. split; [|done].
        by apply lookup_app_l_Some.
      * intros (w & L & H).
        destruct (decide (p < length (heap st))%nat) as [Lt|Ge].
        -- exists w. by rewrite lookup_app_l in L.
        -- assert (p = length (heap st)) as ->.
           { apply lookup_lt_Some in L. rewrite length_app in L.
             simpl in L. lia. }
           rewrite lookup_app_r, Nat.sub_diag in L by lia.
           simpl in L. injection L as <-. simpl in H. done.
Qed.

Lemma wf_heap_insert_word word st :
  Z.of_nat (length word) < MAX_WORD →
  wf_heap st → wf_heap (insert_word word st).
Proof.
  intros Fit H. unfold wf_heap, insert_word; simpl.
  apply Forall_app. split; [done|].
  constructor; [|constructor]. by split_and!.
Qed.

(** Before any resolution every [dp] is [-1]. *)
Definition unresolved (st : State) : Prop :=
  Forall (fun w => Word.dp w = -1) (heap st).

Lemma unresolved_memo_ok st : unresolved st → memo_ok st.
Proof.
  intros U p w L N. unfold unresolved in U. rewrite Forall_lookup in U.
  by destruct N, (U p w L).
Qed.

Lemma load_from_invariants words st :
  Forall (fun word => Z.of_nat (length word) < MAX_WORD) words →
  wf_heap st → wf_table st → unresolved st →
  let st' := fold_left (fun st word => insert_word word st) words st in
  wf_heap st' ∧ wf_table st' ∧ unresolved st'.
Proof.
  intros F. revert st. induction F as [|word words Fit F IH]; simpl; [done|].
  intros st H T U. apply IH.
  - by apply wf_heap_insert_word.
  - by apply wf_table_insert_word.
  - unfold unresolved, insert_word; simpl. apply Forall_app.
    split; [done|]. by repeat constructor.
Qed.

Lemma load_dictionary_consistent words :
  Forall (fun word => Z.of_nat (length word) < MAX_WORD) words →
  consistent (load_dictionary words).
Proof.
  intros F.
  destruct (load_from_invariants words initial F) as (H & T & U).
  - constructor.
  - apply wf_table_initial.
  - constructor.
  - split_and!; [done..|by apply unresolved_memo_ok].
Qed.

(** ** States with the same index *)

Lemma same_entry_refl w : same_entry w w.
Proof. done. Qed.

Lemma same_entry_trans w1 w2 w3 :
  same_entry w1 w2 → same_entry w2 w3 → same_entry w1 w3.
Proof. intros (?&?&?) (?&?&?). split_and!; congruence. Qed.

Lemma same_index_refl st : same_index st st.
Proof. split; [done|]. apply Forall2_same_length_lookup_2; [done|].
  intros i x y ? ?. by simplify_eq. Qed.

Lemma same_index_trans st1 st2 st3 :
  same_index st1 st2 → same_index st2 st3 → same_index st1 st3.
Proof.
  intros [T1 F1] [T2 F2]. split; [congruence|].
  eapply Forall2_trans; [|done..]. apply same_entry_trans.
Qed.

Lemma same_index_lookup st st' p w :
  same_index st st' → heap st !! p = Some w →
  ∃ w', heap st' !! p = Some w' ∧ same_entry w w'.
Proof. intros [_ F] L. by eapply Forall2_lookup_l. Qed.

Lemma same_index_lookup_r st st' p w' :
  same_index st st' → heap st' !! p = Some w' →
  ∃ w, heap st !! p = Some w ∧ same_entry w w'.
Proof. intros [_ F] L. by eapply Forall2_lookup_r. Qed.

Lemma new_sorted_same_entry w w' c :
  same_entry w w' → new_sorted w' c = new_sorted w c.
Proof. intros (_ & E1 & E2). unfold new_sorted. by rewrite E1, E2. Qed.

Lemma find_in_same_index hp hp' key b :
  Forall2 same_entry hp hp' → find_in hp' key b = find_in hp key b.
Proof.
  intros F. induction b as [|x b IH]; simpl; [done|].
  destruct (hp !! x) as [w|] eqn:E.
  - destruct (Forall2_lookup_l _ _ _ _ _ F E) as (w' & -> & (_ & Es & _)).
    rewrite Es. by case_decide.
  - destruct (hp' !! x) as [w'|] eqn:E'; [|done].
    destruct (Forall2_lookup_r _ _ _ _ _ F E') as (w & ? & _). congruence.
Qed.

Lemma find_word_same_index st st' key :
  same_index st st' → find_word st' key = find_word st key.
Proof.
  intros [T F]. unfold find_word, bucket. rewrite T.
  by apply find_in_same_index.
Qed.

Lemma succs_same_index st st' w w' :
  same_index st st' → same_entry w w' → succs st' w' = succs st w.
Proof.
  intros I E. unfold succs. apply list_omap_ext.
  apply Forall_Forall2_diag, Forall_forall. intros c _.
  by rewrite (new_sorted_same_entry w w'), (find_word_same_index st st').
Qed.

Lemma max_length_same_index st st' :
  same_index st st' → max_length st' = max_length st.
Proof.
  intros [_ F]. unfold max_length. f_equal.
  induction F as [|w w' l l' (_ & _ & E) F IH]; simpl; [done|].
  by rewrite E, IH.
Qed.

Lemma wf_heap_same_index st st' :
  same_index st st' → wf_heap st → wf_heap st'.
Proof.
  intros [_ F] H. unfold wf_heap in *.
  induction F as [|w w' l l' (E1 & E2 & E3) F IH]; [done|].
  apply Forall_cons in H as [(W1 & W2 & W3) H].
  constructor; [|by apply IH]. unfold wf_word. rewrite E1, E2, E3. done.
Qed.

Lemma wf_table_same_index st st' :
  same_index st st' → wf_table st → wf_table st'.
Proof.
  intros I T h. destruct (T h) as [Srt M].
  assert (bucket st' h = bucket st h) as ->.
  { unfold bucket. by destruct I as [-> _]. }
  split; [done|]. intros p. rewrite M. split.
  - intros (w & L & H).
    destruct (same_index_lookup _ _ _ _ I L) as (w' & L' & (_ & E & _)).
    exists w'. by rewrite E.
  - intros (w' & L' & H).
    destruct (same_index_lookup_r _ _ _ _ I L') as (w & L & (_ & E & _)).
    exists w. by rewrite <- E.
Qed.

Lemma step_same_index st st' p q :
  same_index st st' → step st p q → step st' p q.
Proof.
  intros I (w & c & L & C & F).
  destruct (same_index_lookup _ _ _ _ I L) as (w' & L' & E).
  exists w', c. split_and!; [done..|].
  by rewrite (new_sorted_same_entry w w'), (find_word_same_index st st').
Qed.

Lemma same_index_tick st : same_index st (tick st).
Proof. exact (same_index_refl st). Qed.

Lemma same_index_emit line st : same_index st (emit line st).
Proof. exact (same_index_refl st). Qed.

Lemma same_index_set_dp p v st : same_index st (set_dp p v st).
Proof.
  split; [done|]. simpl. apply Forall2_same_length_lookup_2.
  - by rewrite length_alter.
  - intros i x y L. destruct (decide (p = i)) as [->|N].
    + rewrite list_lookup_alter_eq, L. by intros [= <-].
    + rewrite list_lookup_alter_ne, L by done. by intros [= <-].
Qed.

Lemma dp_at_lookup st p w : heap st !! p = Some w → dp_at st p = Word.dp w.
Proof. unfold dp_at. by intros ->. Qed.

Lemma dp_at_set_dp st p v w :
  heap st !! p = Some w → dp_at (set_dp p v st) p = v.
Proof.
  intros L. unfold dp_at, set_dp; simpl.
  by rewrite list_lookup_alter_eq, L.
Qed.

Lemma dp_at_set_dp_ne st p v x : x ≠ p → dp_at (set_dp p v st) x = dp_at st x.
Proof.
  intros N. unfold dp_at, set_dp; simpl.
  by rewrite list_lookup_alter_ne.
Qed.

Lemma dp_at_valid st p : dp_at st p ≠ -1 → is_Some (heap st !! p).
Proof. unfold dp_at. destruct (heap st !! p); [by eexists|done]. Qed.

(** ** Loops over the printable characters *)

Lemma fold_left_Fault {A} (f : result A → Z → result A) cs :
  (∀ c, f Fault c = Fault) → fold_left f cs Fault = Fault.
Proof. intros H. induction cs as [|c cs IH]; simpl; [done|]. by rewrite H. Qed.

Lemma fold_left_NoFuel {A} (f : result A → Z → result A) cs :
  (∀ c, f NoFuel c = NoFuel) → fold_left f cs NoFuel = NoFuel.
Proof. intros H. induction cs as [|c cs IH]; simpl; [done|]. by rewrite H. Qed.

(** Partial correctness: an invariant of the iterations holds of the
    value the loop returns. *)
Lemma fold_left_result_inv {A} (f : result A → Z → result A) (P : A → Prop) cs :
  (∀ c, f Fault c = Fault) → (∀ c, f NoFuel c = NoFuel) →
  (∀ a c a', P a → f (Ret a) c = Ret a' → P a') →
  ∀ a a', P a → fold_left f cs (Ret a) = Ret a' → P a'.
Proof.
  intros HF HN Step. induction cs as [|c cs IH]; simpl; intros a a' Pa.
  - by intros [= <-].
  - destruct (f (Ret a) c) as [b| |] eqn:E.
    + apply IH. by eapply Step.
    + by rewrite fold_left_Fault.
    + by rewrite fold_left_NoFuel.
Qed.

(** Total correctness: when every iteration returns and extends the
    invariant by the character it handled, so does the loop. *)
Lemma fold_left_result_total {A} (f : result A → Z → result A)
    (P : list Z → A → Prop) cs :
  (∀ pre c a, P pre a → c ∈ cs → ∃ a', f (Ret a) c = Ret a' ∧ P (pre ++ [c]) a') →
  ∀ pre a, P pre a → ∃ a', fold_left f cs (Ret a) = Ret a' ∧ P (pre ++ cs) a'.
Proof.
  induction cs as [|c cs IH]; simpl; intros Step pre a Pa.
  - exists a. by rewrite app_nil_r.
  - destruct (Step pre c a Pa) as (b & -> & Pb); [apply list_elem_of_here|].
    destruct (IH (fun pre' c' a0 H In => Step pre' c' a0 H (list_elem_of_further _ _ _ In))
                 (pre ++ [c]) b Pb) as (a' & ? & ?).
    exists a'. split; [done|]. by rewrite <- app_assoc in *.
Qed.

(** ** [longest_chain] keeps the index *)

Lemma read_Ret st p w : read st p = Ret w ↔ heap st !! p = Some w.
Proof. unfold read. destruct (heap st !! p); split; congruence. Qed.

Ltac unfold_bind := unfold mbind, result_bind in *.

Lemma chain_step_same_index rec p st1 m c st2 m2 :
  (∀ st q st' r, rec st q = Ret (st', r) → same_index st st') →
  chain_step rec p (Ret (st1, m)) c = Ret (st2, m2) → same_index st1 st2.
Proof.
  intros Rec. unfold chain_step. unfold_bind.
  destruct (read st1 p) as [w| |]; [|done..].
  destruct (find_word _ _) as [q|].
  - destruct (rec (tick st1) q) as [[st' r]| |] eqn:E; [|done..].
    intros [= <- <-]. eapply same_index_trans; [apply same_index_tick|].
    by eapply Rec.
  - intros [= <- <-]. apply same_index_tick.
Qed.

Lemma longest_chain_same_index fuel st p st' r :
  longest_chain fuel st p = Ret (st', r) → same_index st st'.
Proof.
  revert st p st' r. induction fuel as [|fuel IH]; intros st p st' r; [done|].
  simpl. unfold_bind. destruct (read st p) as [w| |]; [|done..].
  case_decide.
  { intros [= <- <-]. apply same_index_refl. }
  destruct (fold_left _ _ _) as [[st2 m]| |] eqn:E; [|done..].
  intros [= <- <-].
  eapply same_index_trans; [|apply same_index_set_dp].
  revert E.
  apply (fold_left_result_inv _ (fun a => same_index st a.1) printable
           (fun _ => eq_refl) (fun _ => eq_refl)); [|apply same_index_refl].
  intros [st1 m1] c [st3 m3] I E; simpl in *.
  eapply same_index_trans; [done|]. by eapply chain_step_same_index.
Qed.

(** ** Lengths along transitions *)

Lemma wf_heap_lookup st p w : wf_heap st → heap st !! p = Some w → wf_word w.
Proof. intros H L. unfold wf_heap in H. rewrite Forall_lookup in H. eauto. Qed.

Lemma wf_word_take w :
  wf_word w → take (Z.to_nat (Word.length w)) (Word.sorted w) = Word.sorted w.
Proof.
  intros (Es & El & _). apply take_ge.
  rewrite Es, sort_string_length, El. lia.
Qed.

Lemma wf_word_new_sorted w c :
  wf_word w → new_sorted w c = merge_insert c (sort_string (Word.original w)).
Proof.
  intros W. unfold new_sorted. rewrite wf_word_take by done.
  by destruct W as (-> & _).
Qed.

Lemma found_length st w c q :
  wf_heap st → wf_word w → find_word st (new_sorted w c) = Some q →
  ∃ wq, heap st !! q = Some wq ∧ Word.sorted wq = new_sorted w c ∧
        Word.length wq = Word.length w + 1.
Proof.
  intros H W (wq & L & E)%find_word_Some. exists wq. split_and!; [done..|].
  pose proof (wf_heap_lookup _ _ _ H L) as (Es & El & _).
  destruct W as (Es' & El' & B).
  assert (length (Word.sorted wq) = S (length (Word.sorted w))) as K.
  { rewrite E. unfold new_sorted. rewrite merge_insert_length. f_equal.
    rewrite take_ge; [done|]. rewrite Es', sort_string_length, El'. lia. }
  rewrite Es, Es', !sort_string_length in K. lia.
Qed.

Lemma step_length st p q w :
  wf_heap st → step st p q → heap st !! p = Some w →
  ∃ wq, heap st !! q = Some wq ∧ Word.length wq = Word.length w + 1.
Proof.
  intros H (w' & c & L & _ & F) L'.
  assert (w' = w) as -> by congruence.
  destruct (found_length st w c q) as (wq & ? & _ & ?); [done| |done|].
  - by eapply wf_heap_lookup.
  - by exists wq.
Qed.

Lemma max_length_ge st p w : heap st !! p = Some w → Word.length w ≤ max_length st.
Proof.
  unfold max_length. revert p.
  induction (heap st) as [|x l IH]; intros [|p]; simpl; try done.
  - intros [= ->]. lia.
  - intros L. specialize (IH p L). lia.
Qed.

Lemma max_length_nonneg st : 0 ≤ max_length st.
Proof. unfold max_length. induction (heap st); simpl; lia. Qed.

(** ** The maximum computed by the loop *)

Lemma max_list1_ge l : 1 ≤ max_list1 l.
Proof. induction l; simpl; lia. Qed.

Lemma max_list1_app l l' : max_list1 (l ++ l') = Z.max (max_list1 l) (max_list1 l').
Proof.
  induction l as [|x l IH]; simpl.
  - pose proof (max_list1_ge l'). lia.
  - rewrite IH. lia.
Qed.

Lemma max_list1_elem x l : x ∈ l → x ≤ max_list1 l.
Proof.
  induction l as [|y l IH]; simpl.
  - by intros ?%elem_of_nil.
  - intros [->|In]%elem_of_cons; [lia|]. specialize (IH In). lia.
Qed.

Lemma max_list1_attained l : max_list1 l = 1 ∨ max_list1 l ∈ l.
Proof.
  induction l as [|y l IH]; simpl; [by left|].
  destruct (Z.max_spec y (max_list1 l)) as [[_ ->]|[_ ->]].
  - destruct IH as [->|In]; [|right; by apply list_elem_of_further].
    pose proof (max_list1_ge l).
    destruct (decide (y = 1)) as [->|]; [|lia].
    right. apply list_elem_of_here.
  - right. apply list_elem_of_here.
Qed.

(** ** Evolution of the state *)

Lemma evolves_refl st : evolves st st.
Proof. split_and!; [apply same_index_refl|done..]. Qed.

Lemma evolves_trans st1 st2 st3 : evolves st1 st2 → evolves st2 st3 → evolves st1 st3.
Proof.
  intros (I1 & O1 & D1 & X1) (I2 & O2 & D2 & X2). split_and!.
  - by eapply same_index_trans.
  - congruence.
  - intros x N. rewrite D2; rewrite D1; done.
  - lia.
Qed.

Lemma evolves_tick st : evolves st (tick st).
Proof. split_and!; [apply same_index_tick|done..|simpl; lia]. Qed.

(** ** Correctness of [longest_chain] *)

(** Entries found for the characters [cs], in order. *)
Definition found (st : State) (w : Word.t) (cs : list Z) : list ptr :=
  omap (fun c => find_word st (new_sorted w c)) cs.

(** What a call that resolves an entry guarantees, for every entry whose
    distance to the longest word is below [k]. *)
Definition resolves (rec : State → ptr → result (State * Z)) (k : Z) : Prop :=
  ∀ st p w, consistent st → heap st !! p = Some w →
    max_length st - Word.length w < k →
    ∃ st' r, rec st p = Ret (st', r) ∧ consistent st' ∧ evolves st st' ∧
             dp_at st' p = r ∧ r ≠ -1 ∧
             (∀ x wx, heap st !! x = Some wx →
                      Word.length wx < Word.length w → dp_at st' x = Word.dp wx).

(** Invariant of the [for] loop of [longest_chain] on the entry [w] at
    [p], entered in state [st0], after the characters [pre]. *)
Definition loop_inv (st0 : State) (p : ptr) (w : Word.t) (pre : list Z)
    (a : State * Z) : Prop :=
  consistent a.1 ∧ evolves st0 a.1 ∧ dp_at a.1 p = -1 ∧
  (∀ q, q ∈ found st0 w pre → dp_at a.1 q ≠ -1) ∧
  a.2 = max_list1 (map (fun q => 1 + dp_at a.1 q) (found st0 w pre)) ∧
  (∀ x wx, heap st0 !! x = Some wx →
           Word.length wx ≤ Word.length w → dp_at a.1 x = Word.dp wx).

Lemma found_snoc st w pre c :
  found st w (pre ++ [c]) =
  found st w pre ++ option_list (find_word st (new_sorted w c)).
Proof.
  unfold found. rewrite omap_app. simpl.
  by destruct (find_word st (new_sorted w c)).
Qed.

Lemma chain_step_correct rec k st0 p w pre c a :
  resolves rec k → heap st0 !! p = Some w →
  max_length st0 - Word.length w < k + 1 →
  loop_inv st0 p w pre a →
  ∃ a', chain_step rec p (Ret a) c = Ret a' ∧ loop_inv st0 p w (pre ++ [c]) a'.
Proof.
  intros Rec L Fu. destruct a as [st1 m].
  intros (C1 & Ev & Dp & Res & Hm & Fr); simpl in *.
  pose proof Ev as (I01 & _).
  destruct (same_index_lookup _ _ _ _ I01 L) as (w1 & L1 & E1).
  destruct C1 as (H1 & T1 & M1).
  assert (Fs : find_word (tick st1) (new_sorted w1 c)
               = find_word st0 (new_sorted w c)).
  { rewrite (new_sorted_same_entry w w1) by done.
    apply (find_word_same_index st0 (tick st1)).
    eapply same_index_trans; [done|apply same_index_tick]. }
  unfold chain_step, mbind, result_bind, read. rewrite L1, Fs.
  unfold loop_inv. setoid_rewrite found_snoc.
  destruct (find_word st0 (new_sorted w c)) as [q|] eqn:F; simpl.
  - assert (wf_word w1) as W1 by (by eapply wf_heap_lookup).
    change (find_word st1 (new_sorted w1 c) = Some q) in Fs.
    destruct (found_length st1 w1 c q H1 W1 Fs) as (wq & Lq & _ & Elq).
    destruct E1 as (_ & _ & El1).
    destruct (Rec (tick st1) q wq) as (st2 & r & -> & C2 & Ev2 & Dq & Rn & Fr2).
    { done. }
    { done. }
    { change (max_length (tick st1)) with (max_length st1).
      rewrite (max_length_same_index st0 st1) by done. lia. }
    eexists (_, _). split; [done|].
    pose proof Ev2 as (_ & _ & Keep & Ex2).
    change (dp_at (tick st1)) with (dp_at st1) in Keep.
    assert (Old : ∀ q', q' ∈ found st0 w pre → dp_at st2 q' = dp_at st1 q').
    { intros q' In. apply Keep. by apply Res. }
    split_and!; simpl.
    + done.
    + eapply evolves_trans; [done|].
      eapply evolves_trans; [apply evolves_tick|done].
    + rewrite (Fr2 p w1); [|done|lia]. by rewrite <- (dp_at_lookup st1 p w1).
    + intros q' [In| ->%list_elem_of_singleton]%elem_of_app.
      * rewrite Old by done. by apply Res.
      * by rewrite Dq.
    + rewrite map_app, max_list1_app. simpl. rewrite Dq.
      rewrite (map_ext_in _ (fun q => 1 + dp_at st1 q)).
      2:{ intros q' In%list_elem_of_In. by rewrite Old. }
      rewrite <- Hm. pose proof (max_list1_ge (map (fun q => 1 + dp_at st1 q)
                                               (found st0 w pre))).
      destruct (Z.gtb_spec (1 + r) m); lia.
    + intros x wx Lx Le.
      destruct (same_index_lookup _ _ _ _ I01 Lx) as (wx1 & Lx1 & (_ & _ & Elx)).
      rewrite (Fr2 x wx1); [|done|lia].
      rewrite <- (dp_at_lookup st1 x wx1) by done. by apply (Fr x wx).
  - exists (tick st1, m). split; [done|]. rewrite app_nil_r.
    split_and!; simpl; try done.
    eapply evolves_trans; [done|apply evolves_tick].
Qed.

Lemma memo_ok_set_dp st p w m :
  wf_heap st → memo_ok st → heap st !! p = Some w → Word.dp w = -1 →
  (∀ q, q ∈ succs st w → dp_at st q ≠ -1) →
  m = best st w →
  memo_ok (set_dp p m st).
Proof.
  intros H M L D Res Hm x wx Lx Dx.
  pose proof (same_index_set_dp p m st) as I.
  assert (NotP : ∀ q, dp_at st q ≠ -1 → q ≠ p).
  { intros q N ->. by rewrite (dp_at_lookup st p w) in N. }
  assert (Same : ∀ w0 w0', same_entry w0 w0' →
            (∀ q, q ∈ succs st w0 → dp_at st q ≠ -1) →
            (∀ q, q ∈ succs (set_dp p m st) w0' → dp_at (set_dp p m st) q ≠ -1) ∧
            best (set_dp p m st) w0' = best st w0).
  { intros w0 w0' E R. unfold best.
    rewrite (succs_same_index st (set_dp p m st) w0 w0') by done. split.
    - intros q In. rewrite dp_at_set_dp_ne; [by apply R|by apply NotP, R].
    - f_equal. apply map_ext_in. intros q In%list_elem_of_In.
      rewrite dp_at_set_dp_ne; [done|by apply NotP, R]. }
  destruct (decide (x = p)) as [->|N].
  - assert (wx = Word.mk (Word.original w) (Word.sorted w) (Word.length w) m) as ->.
    { revert Lx. unfold set_dp; simpl. rewrite list_lookup_alter_eq, L.
      simpl. by intros [= <-]. }
    destruct (Same w (Word.mk (Word.original w) (Word.sorted w) (Word.length w) m))
      as [R' B']; [done..|].
    split; [done|]. simpl. by rewrite B'.
  - assert (heap st !! x = Some wx) as Lx'.
    { revert Lx. unfold set_dp; simpl. by rewrite list_lookup_alter_ne. }
    destruct (M x wx Lx' Dx) as [R B].
    destruct (Same wx wx) as [R' B']; [done..|].
    split; [done|]. by rewrite B'.
Qed.

(** [longest_chain] returns on every entry once the fuel exceeds the
    distance from the entry's length to the longest word's, and the state
    it leaves is consistent. *)
Lemma longest_chain_resolves fuel : resolves (longest_chain fuel) (Z.of_nat fuel).
Proof.
  induction fuel as [|fuel IH]; intros st p w C L Fu.
  { pose proof (max_length_ge st p w L). lia. }
  simpl. unfold mbind, result_bind, read. rewrite L.
  case_decide as D.
  { exists st, (Word.dp w). split_and!; try done.
    - apply evolves_refl.
    - by apply dp_at_lookup.
    - intros x wx Lx _. by apply dp_at_lookup. }
  assert (Word.dp w = -1) as D' by (destruct (decide (Word.dp w = -1)); [done|by destruct D]).
  destruct (fold_left_result_total (chain_step (longest_chain fuel) p)
              (loop_inv st p w) printable) with (pre := @nil Z) (a := (st, 1))
    as ([st2 m] & -> & C2 & Ev & Dp & Res & Hm & Fr).
  { intros pre c a Inv _. eapply chain_step_correct; [apply IH|done| |done]. lia. }
  { split_and!; simpl; try done.
    - apply evolves_refl.
    - by rewrite (dp_at_lookup st p w).
    - by intros q ?%elem_of_nil.
    - intros x wx Lx _. by apply dp_at_lookup. }
  simpl in *. change (found st w printable) with (succs st w) in *.
  pose proof Ev as (I & Out & Keep & Ex).
  destruct (same_index_lookup _ _ _ _ I L) as (w2 & L2 & E2).
  destruct C2 as (H2 & T2 & M2).
  pose proof (same_index_set_dp p m st2) as I2.
  exists (set_dp p m st2), m. split_and!.
  - done.
  - split_and!.
    + by eapply wf_heap_same_index.
    + by eapply wf_table_same_index.
    + apply (memo_ok_set_dp st2 p w2); try done.
      * by rewrite <- (dp_at_lookup st2 p w2).
      * by rewrite (succs_same_index st st2 w w2).
      * unfold best. by rewrite (succs_same_index st st2 w w2).
  - split_and!.
    + by eapply same_index_trans.
    + done.
    + intros x N. rewrite dp_at_set_dp_ne; [by apply Keep|].
      intros ->. by rewrite (dp_at_lookup st p w) in N.
    + done.
  - by apply (dp_at_set_dp st2 p m w2).
  - pose proof (max_list1_ge (map (fun q => 1 + dp_at st2 q) (succs st w))). lia.
  - intros x wx Lx Lt. rewrite dp_at_set_dp_ne; [apply Fr; [done|lia]|].
    intros ->. simplify_eq. lia.
Qed.

(** ** Chains and stored values *)

Lemma same_entry_sym w w' : same_entry w w' → same_entry w' w.
Proof. intros (?&?&?). by split_and!. Qed.

Lemma same_index_sym st st' : same_index st st' → same_index st' st.
Proof.
  intros [T F]. split; [done|].
  apply Forall2_flip. eapply Forall2_impl; [done|]. apply same_entry_sym.
Qed.

Lemma chain_from_same_index st st' p l :
  same_index st st' → chain_from st p l → chain_from st' p l.
Proof.
  intros I. induction 1 as [p w L|p q l S C IH].
  - destruct (same_index_lookup _ _ _ _ I L) as (w' & L' & _).
    by econstructor.
  - econstructor 2; [by eapply step_same_index|done].
Qed.

Lemma is_longest_same_index st st' p n :
  same_index st st' → is_longest st p n → is_longest st' p n.
Proof.
  intros I [(l & C & E) U]. split.
  - exists l. split; [by eapply chain_from_same_index|done].
  - intros l' C'. apply U. eapply chain_from_same_index; [|done].
    by apply same_index_sym.
Qed.

Lemma is_longest_unique st p n n' : is_longest st p n → is_longest st p n' → n = n'.
Proof.
  intros [(l & C & E) U] [(l' & C' & E') U'].
  pose proof (U l' C'). pose proof (U' l C). lia.
Qed.

Lemma elem_of_succs st w q :
  q ∈ succs st w ↔ ∃ c, c ∈ printable ∧ find_word st (new_sorted w c) = Some q.
Proof. unfold succs. by rewrite list_elem_of_omap. Qed.

Lemma step_succs st p w q :
  heap st !! p = Some w → (step st p q ↔ q ∈ succs st w).
Proof.
  intros L. rewrite elem_of_succs. split.
  - intros (w' & c & L' & ? & ?). simplify_eq. by exists c.
  - intros (c & ? & ?). by exists w, c.
Qed.

Lemma memo_step st p w q :
  memo_ok st → heap st !! p = Some w → Word.dp w ≠ -1 → step st p q →
  dp_at st q ≠ -1 ∧ 1 + dp_at st q ≤ Word.dp w.
Proof.
  intros M L D S. destruct (M p w L D) as [R B].
  apply (step_succs st p w q L) in S. split; [by apply R|].
  rewrite B. apply max_list1_elem.
  apply list_elem_of_fmap. by exists q.
Qed.

Lemma memo_attained st p w :
  memo_ok st → heap st !! p = Some w → Word.dp w ≠ -1 →
  (Word.dp w = 1 ∧ ∀ q, step st p q → False) ∨
  ∃ q, step st p q ∧ Word.dp w = 1 + dp_at st q.
Proof.
  intros M L D. destruct (M p w L D) as [R B].
  destruct (succs st w) as [|q0 l] eqn:E.
  - left. split; [by rewrite B; unfold best; rewrite E|].
    intros q S%(step_succs st p w q L). rewrite E in S.
    by apply elem_of_nil in S.
  - right.
    destruct (max_list1_attained (map (fun q => 1 + dp_at st q) (succs st w)))
      as [One|In].
    + exfalso. assert (q0 ∈ succs st w) as In0 by (rewrite E; apply list_elem_of_here).
      destruct (memo_step st p w q0 M L D) as [N Le].
      { by apply (step_succs st p w q0 L). }
      fold (best st w) in One. rewrite <- B in One.
      destruct (dp_at_valid st q0 N) as [w0 L0].
      destruct (M q0 w0 L0) as [_ B0].
      { by rewrite <- (dp_at_lookup st q0 w0). }
      pose proof (max_list1_ge (map (fun q => 1 + dp_at st q) (succs st w0))).
      rewrite (dp_at_lookup st q0 w0 L0) in Le. unfold best in B0. lia.
    + apply list_elem_of_fmap in In as (q & Eq & In). exists q. split.
      * by apply (step_succs st p w q L).
      * by rewrite B.
Qed.

Lemma chain_from_head st p l : chain_from st p l → ∃ l', l = p :: l'.
Proof. destruct 1; by eexists. Qed.

Lemma chain_from_valid st p l : chain_from st p l → is_Some (heap st !! p).
Proof. destruct 1 as [p w L|p q l (w & c & L & _) _]; by eexists. Qed.

(** No chain from a resolved entry is longer than its stored value. *)
Lemma chain_le_dp st p l :
  memo_ok st → chain_from st p l → dp_at st p ≠ -1 →
  Z.of_nat (length l) ≤ dp_at st p.
Proof.
  intros M. induction 1 as [p w L|p q l S C IH]; intros D.
  - rewrite (dp_at_lookup st p w L) in *. destruct (M p w L D) as [_ ->].
    pose proof (max_list1_ge (map (fun q => 1 + dp_at st q) (succs st w))).
    simpl. unfold best. lia.
  - destruct (chain_from_valid st p (p :: l)) as [w L]; [by econstructor 2|].
    rewrite (dp_at_lookup st p w L) in *.
    destruct (memo_step st p w q M L D S) as [N Le].
    specialize (IH N). simpl length. lia.
Qed.

(** A chain as long as the stored value exists. *)
Lemma chain_of_dp st (n : nat) :
  wf_heap st → memo_ok st →
  ∀ p w, heap st !! p = Some w → Word.dp w ≠ -1 →
         max_length st - Word.length w < Z.of_nat n →
         ∃ l, chain_from st p l ∧ Z.of_nat (length l) = Word.dp w.
Proof.
  intros H M. induction n as [|n IH]; intros p w L D Fu.
  { pose proof (max_length_ge st p w L). lia. }
  destruct (memo_attained st p w M L D) as [[One _]|(q & S & E)].
  - exists [p]. split; [by econstructor|by rewrite One].
  - destruct (step_length st p q w H S L) as (wq & Lq & El).
    destruct (memo_step st p w q M L D S) as [N _].
    rewrite (dp_at_lookup st q wq Lq) in *.
    destruct (IH q wq Lq N) as (l & C & El'); [lia|].
    exists (p :: l). split; [by econstructor 2|].
    simpl length. lia.
Qed.

Lemma resolved_is_longest st p w :
  consistent st → heap st !! p = Some w → Word.dp w ≠ -1 →
  is_longest st p (Word.dp w).
Proof.
  intros (H & T & M) L D. split.
  - apply (chain_of_dp st (S (Z.to_nat (max_length st))) H M p w L D).
    pose proof (max_length_ge st p w L). pose proof (max_length_nonneg st).
    pose proof (wf_heap_lookup st p w H L) as (_ & El & _). lia.
  - intros l C. rewrite <- (dp_at_lookup st p w L).
    apply chain_le_dp; [done..|]. by rewrite (dp_at_lookup st p w L).
Qed.

(** ** The chains [print_chains] emits *)

(** [st] after the lines [ls] were printed. *)
Definition emits (ls : list (list cstring)) (st : State) : State :=
  {| heap := heap st; hash_table := hash_table st;
     output := output st ++ ls; expansions := expansions st |}.

Definition spelling (st : State) (p : ptr) : cstring :=
  from_option Word.original [] (heap st !! p).

(** The traversal of [print_chains] without its buffer: for every chain
    emitted, in order, the characters chosen and the entries visited. *)
Fixpoint enum (fuel : nat) (st : State) (p : ptr) (max_len depth : Z)
  : list (list Z * list ptr) :=
  match fuel with
  | O => []
  | S fuel' =>
      if decide (depth + 1 = max_len) then [([], [p])]
      else
        match heap st !! p with
        | None => []
        | Some w =>
            flat_map
              (fun c =>
                 match find_word st (new_sorted w c) with
                 | Some q =>
                     if decide (dp_at st q = max_len - depth - 1)
                     then map (fun x => (c :: x.1, p :: x.2))
                            (enum fuel' st q max_len (depth + 1))
                     else []
                 | None => []
                 end)
              printable
        end
  end.

Definition lines_of (st : State) (prefix : list cstring)
    (l : list (list Z * list ptr)) : list (list cstring) :=
  map (fun x => prefix ++ map (spelling st) x.2) l.

Lemma emits_nil st : emits [] st = st.
Proof. destruct st. unfold emits; simpl. by rewrite app_nil_r. Qed.

Lemma emits_emits l1 l2 st : emits l2 (emits l1 st) = emits (l1 ++ l2) st.
Proof. unfold emits; simpl. by rewrite app_assoc. Qed.

Lemma emit_emits line ls st : emit line (emits ls st) = emits (ls ++ [line]) st.
Proof. unfold emit, emits; simpl. by rewrite app_assoc. Qed.

Lemma take_write n x (l : list cstring) :
  (n < length l)%nat → take (S n) (<[n := x]> l) = take n l ++ [x].
Proof.
  intros Lt. rewrite (take_S_r _ _ x).
  - by rewrite take_insert_ge by lia.
  - by apply list_lookup_insert_eq.
Qed.

Lemma take_take_eq {A} (l l' : list A) n m :
  (n ≤ m)%nat → take m l = take m l' → take n l = take n l'.
Proof.
  intros Le E.
  rewrite <- (Nat.min_l n m), <- !take_take by done. by rewrite E.
Qed.

Section print_chains_traversal.
  Variables (st : State) (max_len : Z) (N : nat).
  (** [Inv p d]: the traversal may stand at entry [p] at depth [d]. *)
  Variable Inv : ptr → Z → Prop.
  Hypothesis Hwf : wf_heap st.
  Hypothesis Inv_bound : ∀ p d, Inv p d → 0 ≤ d < Z.of_nat N.
  Hypothesis Inv_step : ∀ p d w c q,
    Inv p d → d + 1 ≠ max_len → heap st !! p = Some w → c ∈ printable →
    find_word st (new_sorted w c) = Some q →
    dp_at st q = max_len - d - 1 → Inv q (d + 1).

(** What one character contributes to [enum] at entry [w] at [p]. *)
Definition enum_char (fuel : nat) (p : ptr) (w : Word.t) (depth : Z) (c : Z)
  : list (list Z * list ptr) :=
  match find_word st (new_sorted w c) with
  | Some q =>
      if decide (dp_at st q = max_len - depth - 1)
      then map (fun x => (c :: x.1, p :: x.2)) (enum fuel st q max_len (depth + 1))
      else []
  | None => []
  end.

(** Invariant of the [for] loop of [print_chains] after the characters
    [pre]: the lines printed so far, and the slots [0 .. d] untouched. *)
Definition print_inv (f : Z → list (list Z * list ptr)) (ls : list (list cstring))
    (prefix : list cstring) (chain1 : list cstring) (d : nat) (pre : list Z)
    (a : State * list cstring) : Prop :=
  a.1 = emits (ls ++ lines_of st prefix (flat_map f pre)) st ∧
  length a.2 = N ∧ take (S d) a.2 = take (S d) chain1.

Lemma lines_of_app prefix l l' :
  lines_of st prefix (l ++ l') = lines_of st prefix l ++ lines_of st prefix l'.
Proof. unfold lines_of. by rewrite map_app. Qed.

Lemma lines_of_cons_path prefix c p l :
  lines_of st prefix (map (fun x => (c :: x.1, p :: x.2)) l) =
  lines_of st (prefix ++ [spelling st p]) l.
Proof.
  unfold lines_of. rewrite map_map. apply map_ext. intros [cs path]; simpl.
  by rewrite <- app_assoc.
Qed.

Lemma print_chains_enum fuel :
  ∀ p w depth chain ls,
    Inv p depth → heap st !! p = Some w →
    max_length st - Word.length w < Z.of_nat fuel → length chain = N →
    ∃ chain',
      print_chains fuel (emits ls st) p max_len chain depth =
        Ret (emits (ls ++ lines_of st (take (Z.to_nat depth) chain)
                            (enum fuel st p max_len depth)) st, chain') ∧
      length chain' = N ∧
      take (Z.to_nat depth) chain' = take (Z.to_nat depth) chain.
Proof.
  induction fuel as [|fuel IH]; intros p w depth chain ls I L Fu Len.
  { pose proof (max_length_ge st p w L). lia. }
  pose proof (Inv_bound p depth I) as B.
  cbn [print_chains enum]. unfold mbind, result_bind, read.
  cbn [heap emits]. rewrite L.
  unfold write_slot. rewrite decide_True by lia.
  set (d := Z.to_nat depth).
  set (chain1 := <[d := Word.original w]> chain).
  assert (length chain1 = N) as Len1 by (unfold chain1; by rewrite length_insert).
  assert (take (S d) chain1 = take d chain ++ [spelling st p]) as T1.
  { unfold chain1, spelling. rewrite L. simpl. apply take_write. lia. }
  assert (take d chain1 = take d chain) as T0.
  { unfold chain1. by rewrite take_insert_ge by lia. }
  assert (Z.to_nat (depth + 1) = S d) as Ed by lia.
  case_decide as D.
  - exists chain1. split_and!; [|done..].
    rewrite emit_emits, Ed, T1. done.
  - fold (enum_char fuel p w depth).
    destruct (fold_left_result_total
      (print_step (fun st q ch => print_chains fuel st q max_len ch (depth + 1))
         p max_len depth)
      (print_inv (enum_char fuel p w depth) ls (take d chain) chain1 d) printable)
      with (pre := @nil Z) (a := (emits ls st, chain1))
      as ([st2 chain2] & -> & E2 & Len2 & T2).
    + intros pre c [st1 ch1] (E1 & L1 & Tk) Inc. cbn [fst snd] in *. subst st1.
      unfold print_step, mbind, result_bind, read. cbn [heap emits]. rewrite L.
      change (find_word (emits ?l st) (new_sorted w c))
        with (find_word st (new_sorted w c)).
      unfold print_inv. setoid_rewrite flat_map_app.
      setoid_rewrite lines_of_app. cbn [flat_map].
      destruct (find_word st (new_sorted w c)) as [q|] eqn:F.
      2:{ assert (enum_char fuel p w depth c = []) as ->
            by (unfold enum_char; by rewrite F).
          eexists (_, _). split; [done|]. split_and!; cbn [fst snd]; try done.
          unfold lines_of at 2; simpl. by rewrite app_nil_r. }
      destruct (found_length st w c q Hwf (wf_heap_lookup _ _ _ Hwf L) F)
        as (wq & Lq & _ & Elq).
      rewrite Lq. rewrite <- (dp_at_lookup st q wq Lq).
      case_decide as Dq.
      2:{ assert (enum_char fuel p w depth c = []) as ->
            by (unfold enum_char; rewrite F; by rewrite decide_False).
          eexists (_, _). split; [done|]. split_and!; cbn [fst snd]; try done.
          unfold lines_of at 2; simpl. by rewrite app_nil_r. }
      assert (enum_char fuel p w depth c =
              map (fun x => (c :: x.1, p :: x.2))
                (enum fuel st q max_len (depth + 1))) as ->
        by (unfold enum_char; rewrite F; by rewrite decide_True).
      rewrite app_nil_r.
      destruct (IH q wq (depth + 1) ch1
                  (ls ++ lines_of st (take d chain)
                          (flat_map (enum_char fuel p w depth) pre)))
        as (ch2 & -> & L2 & Tk2); [by eapply Inv_step|done|lia|done|].
      eexists (_, _). split; [done|]. split_and!; cbn [fst snd]; [|done|].
      * f_equal. rewrite <- app_assoc. f_equal. f_equal.
        rewrite lines_of_cons_path. by rewrite Ed, Tk, T1.
      * rewrite Ed in Tk2. congruence.
    + split_and!; cbn [fst snd]; try done. unfold lines_of; simpl.
      by rewrite app_nil_r.
    + cbn [fst snd] in *. subst st2. exists chain2. split_and!; [done|done|].
      rewrite <- T0. apply (take_take_eq _ _ _ (S d)); [lia|done].
Qed.

End print_chains_traversal.

(** ** Chains with their inserted characters *)

(** [walk st p cs l]: [l] is the chain from [p] that inserts the
    characters [cs], one per transition. *)
Inductive walk (st : State) : ptr → list Z → list ptr → Prop :=
| walk_one p w : heap st !! p = Some w → walk st p [] [p]
| walk_cons p w c q cs l :
    heap st !! p = Some w → c ∈ printable →
    find_word st (new_sorted w c) = Some q →
    walk st q cs l → walk st p (c :: cs) (p :: l).

(** Lexicographic order on sequences of characters. *)
Inductive lex_lt : list Z → list Z → Prop :=
| lex_nil c l : lex_lt [] (c :: l)
| lex_head c c' l l' : c < c' → lex_lt (c :: l) (c' :: l')
| lex_tail c l l' : lex_lt l l' → lex_lt (c :: l) (c :: l').

(** [R] holds of every two consecutive elements. *)
Fixpoint adjacent {A} (R : A → A → Prop) (l : list A) : Prop :=
  match l with
  | a :: t => match t with b :: _ => R a b | [] => True end ∧ adjacent R t
  | [] => True
  end.

(** [b] is a derived anagram of [a]: its canonical form is the one of [a]
    with one printable character inserted. *)
Definition derives (a b : cstring) : Prop :=
  ∃ c, 33 ≤ c ≤ 126 ∧ sort_string b = merge_insert c (sort_string a).

Lemma walk_chain_from st p cs l : walk st p cs l → chain_from st p l.
Proof.
  induction 1 as [p w L|p w c q cs l L C F W IH].
  - by econstructor.
  - econstructor 2; [by exists w, c|done].
Qed.

Lemma chain_from_walk st p l : chain_from st p l → ∃ cs, walk st p cs l.
Proof.
  induction 1 as [p w L|p q l (w & c & L & C & F) Ch [cs IH]].
  - exists []. by econstructor.
  - exists (c :: cs). by econstructor 2.
Qed.

Lemma walk_length st p cs l : walk st p cs l → length l = S (length cs).
Proof. induction 1; simpl; by f_equal. Qed.

(** The characters determine the chain. *)
Lemma walk_functional st p cs l l' : walk st p cs l → walk st p cs l' → l = l'.
Proof.
  intros W. revert l'. induction W as [p w L|p w c q cs l L C F W IH]; intros l' W'.
  - by inversion W'.
  - inversion W' as [|? w' ? q' ? l0 L' C' F' W0]; subst.
    assert (w' = w) as -> by congruence.
    assert (q' = q) as -> by congruence.
    f_equal. by apply IH.
Qed.

(** Two different characters lead to two different entries. *)
Lemma found_inj st w c c' q :
  find_word st (new_sorted w c) = Some q →
  find_word st (new_sorted w c') = Some q → c = c'.
Proof.
  intros (wq & L & E)%find_word_Some (wq' & L' & E')%find_word_Some.
  assert (wq' = wq) as -> by congruence.
  apply (merge_insert_inj c c' (take (Z.to_nat (Word.length w)) (Word.sorted w))).
  unfold new_sorted in *. congruence.
Qed.

(** The chain determines the characters. *)
Lemma walk_choices_unique st p cs cs' l :
  walk st p cs l → walk st p cs' l → cs = cs'.
Proof.
  intros W. revert cs'. induction W as [p w L|p w c q cs l L C F W IH]; intros cs' W'.
  - inversion W' as [|? ? ? ? ? ? ? ? ? W0]; subst; [done|].
    inversion W0.
  - inversion W' as [? ? ? E|? w' c' q' cs0 l0 L' C' F' W0]; subst.
    { inversion W. }
    assert (w' = w) as -> by congruence.
    assert (q' = q) as ->.
    { inversion W; inversion W0; congruence. }
    f_equal; [|by apply IH]. symmetry. by eapply found_inj.
Qed.

Lemma walk_derives st p cs l :
  wf_heap st → walk st p cs l → adjacent derives (map (spelling st) l).
Proof.
  intros H. induction 1 as [p w L|p w c q cs l L C F W IH]; simpl; [done|].
  split; [|done].
  destruct (walk_chain_from _ _ _ _ W) as [q' wq Lq|q' q2 l' S Ch]; simpl.
  - unfold spelling. rewrite L, Lq. simpl. exists c.
    split; [by apply elem_of_printable|].
    pose proof (wf_heap_lookup _ _ _ H L) as Ww.
    pose proof (wf_heap_lookup _ _ _ H Lq) as (Es & _).
    apply find_word_Some in F as (wq' & Lq' & E).
    assert (wq' = wq) as -> by congruence.
    by rewrite <- Es, E, wf_word_new_sorted.
  - destruct S as (wq & ? & Lq & _). unfold spelling. rewrite L, Lq. simpl.
    exists c. split; [by apply elem_of_printable|].
    pose proof (wf_heap_lookup _ _ _ H L) as Ww.
    pose proof (wf_heap_lookup _ _ _ H Lq) as (Es & _).
    apply find_word_Some in F as (wq' & Lq' & E).
    assert (wq' = wq) as -> by congruence.
    by rewrite <- Es, E, wf_word_new_sorted.
Qed.

(** A derived anagram has the letters of its base word and one more. *)
Lemma derives_letters a b : derives a b → ∃ c, 33 ≤ c ≤ 126 ∧ b ≡ₚ c :: a.
Proof.
  intros (c & C & E). exists c. split; [done|].
  by rewrite <- (sort_string_perm b), E, merge_insert_perm, sort_string_perm.
Qed.

(** ** What the traversal enumerates *)

Lemma elem_of_flat_map {A B} (f : A → list B) (l : list A) (y : B) :
  y ∈ flat_map f l ↔ ∃ x, x ∈ l ∧ y ∈ f x.
Proof.
  rewrite list_elem_of_In, in_flat_map. split.
  - intros (x & ? & ?). exists x. by rewrite !list_elem_of_In.
  - intros (x & ? & ?). exists x. by rewrite <- !list_elem_of_In.
Qed.

Lemma elem_of_enum_S fuel st p w max_len depth x :
  heap st !! p = Some w → depth + 1 ≠ max_len →
  x ∈ enum (S fuel) st p max_len depth ↔
  ∃ c q y, c ∈ printable ∧ find_word st (new_sorted w c) = Some q ∧
           dp_at st q = max_len - depth - 1 ∧
           y ∈ enum fuel st q max_len (depth + 1) ∧
           x = (c :: y.1, p :: y.2).
Proof.
  intros L D. cbn [enum]. rewrite decide_False, L by done.
  rewrite elem_of_flat_map. split.
  - intros (c & C & In). destruct (find_word st (new_sorted w c)) as [q|] eqn:F.
    2:{ by apply elem_of_nil in In. }
    case_decide as Dq.
    2:{ by apply elem_of_nil in In. }
    apply list_elem_of_fmap in In as (y & -> & In). by exists c, q, y.
  - intros (c & q & y & C & F & Dq & In & ->). exists c. split; [done|].
    rewrite F, decide_True by done.
    apply list_elem_of_fmap. by exists y.
Qed.

(** Every chain enumerated is a chain of the index of the required
    length, ending at an entry whose stored value is 1. *)
Lemma enum_sound st max_len fuel :
  ∀ p w depth x,
    heap st !! p = Some w → x ∈ enum fuel st p max_len depth →
    walk st p x.1 x.2 ∧ Z.of_nat (length x.2) = max_len - depth ∧
    (dp_at st p = max_len - depth → ∃ e, last x.2 = Some e ∧ dp_at st e = 1).
Proof.
  induction fuel as [|fuel IH]; intros p w depth x L In.
  { by apply elem_of_nil in In. }
  destruct (decide (depth + 1 = max_len)) as [D|D].
  - cbn [enum] in In. rewrite decide_True in In by done.
    apply list_elem_of_singleton in In as ->. simpl. split_and!.
    + by econstructor.
    + lia.
    + intros E. exists p. split; [done|lia].
  - apply (elem_of_enum_S fuel st p w) in In
      as (c & q & y & C & F & Dq & In & ->); [|done..].
    pose proof F as (wq & Lq & _)%find_word_Some.
    destruct (IH q wq (depth + 1) y Lq In) as (W & Len & Last).
    simpl. split_and!.
    + by econstructor 2.
    + lia.
    + intros _. destruct Last as (e & E & De); [lia|].
      exists e. split; [|done]. by rewrite last_cons, E.
Qed.

(** Every chain of the required length from a resolved entry is
    enumerated. *)
Lemma enum_complete st max_len :
  wf_heap st → memo_ok st →
  ∀ p cs l, walk st p cs l →
    ∀ fuel depth w,
      heap st !! p = Some w → Word.dp w ≠ -1 →
      Word.dp w = max_len - depth →
      Z.of_nat (length l) = max_len - depth →
      max_length st - Word.length w < Z.of_nat fuel →
      (cs, l) ∈ enum fuel st p max_len depth.
Proof.
  intros H M p cs l W.
  induction W as [p w L|p w c q cs l L C F W IH]; intros fuel depth w0 L0 D E Len Fu.
  - destruct fuel as [|fuel].
    { pose proof (max_length_ge st p w0 L0). lia. }
    cbn [enum]. rewrite decide_True by (simpl in Len; lia).
    apply list_elem_of_here.
  - assert (w0 = w) as -> by congruence.
    destruct fuel as [|fuel].
    { pose proof (max_length_ge st p w L). lia. }
    pose proof (walk_length _ _ _ _ W) as Wl.
    simpl length in Len.
    destruct (found_length st w c q H (wf_heap_lookup _ _ _ H L) F)
      as (wq & Lq & _ & Elq).
    destruct (memo_step st p w q M L D) as [Nq Le]; [by exists w, c|].
    pose proof (chain_le_dp st q l M (walk_chain_from _ _ _ _ W) Nq) as Ge.
    rewrite (dp_at_lookup st q wq Lq) in *.
    apply (elem_of_enum_S fuel st p w); [done|lia|].
    exists c, q, (cs, l). split_and!; try done.
    + rewrite (dp_at_lookup st q wq Lq). lia.
    + apply (IH fuel (depth + 1) wq); [done|done|lia..].
Qed.

Lemma lex_lt_cons_sorted c (l : list (list Z)) :
  StronglySorted lex_lt l → StronglySorted lex_lt (map (cons c) l).
Proof.
  induction 1 as [|x l S IH All]; simpl; constructor; [done|].
  apply Forall_fmap. eapply Forall_impl; [done|].
  intros y Lt. by constructor 3.
Qed.

(** The chains are enumerated in lexicographic order of the characters
    inserted. *)
Lemma enum_sorted st max_len fuel :
  ∀ p depth, StronglySorted lex_lt (map fst (enum fuel st p max_len depth)).
Proof.
  induction fuel as [|fuel IH]; intros p depth; cbn [enum].
  { constructor. }
  case_decide; [repeat constructor|].
  destruct (heap st !! p) as [w|]; [|constructor].
  pose proof printable_increasing as Inc.
  induction Inc as [|c cs _ IHcs All]; cbn [flat_map map]; [constructor|].
  rewrite map_app. apply StronglySorted_app; split_and!; [| |done].
  - intros x1 x2 In1 In2.
    apply list_elem_of_fmap in In2 as (y2 & -> & In2).
    apply elem_of_flat_map in In2 as (c2 & C2 & In2).
    rewrite Forall_forall in All. specialize (All c2 C2).
    destruct (find_word st (new_sorted w c)) as [q|].
    2:{ by apply elem_of_nil in In1. }
    case_decide.
    2:{ by apply elem_of_nil in In1. }
    rewrite <- list_fmap_compose in In1.
    apply list_elem_of_fmap in In1 as (y1 & -> & In1). simpl.
    destruct (find_word st (new_sorted w c2)) as [q2|].
    2:{ by apply elem_of_nil in In2. }
    case_decide.
    2:{ by apply elem_of_nil in In2. }
    apply list_elem_of_fmap in In2 as (z2 & -> & In2). simpl.
    by constructor 2.
  - destruct (find_word st (new_sorted w c)) as [q|]; [|constructor].
    case_decide; [|constructor].
    rewrite map_map. simpl.
    rewrite <- (map_map fst (cons c)). apply lex_lt_cons_sorted, IH.
Qed.

(** ** [print_chains] on a well-formed state *)

Lemma max_length_lt st : wf_heap st → max_length st < MAX_WORD.
Proof.
  unfold wf_heap, max_length. induction 1 as [|w l (_ & _ & B) _ IH]; simpl.
  - unfold MAX_WORD. lia.
  - lia.
Qed.

Lemma wf_word_length_nonneg w : wf_word w → 0 ≤ Word.length w.
Proof. intros (_ & -> & _). lia. Qed.

(** With a buffer of at least [MAX_WORD] slots [print_chains] returns for
    every [max_len], and prints the chains of [enum]. *)
Lemma print_chains_any st p w fuel chain max_len :
  wf_heap st → heap st !! p = Some w →
  MAX_WORD ≤ Z.of_nat (length chain) →
  max_length st - Word.length w < Z.of_nat fuel →
  ∃ chain',
    print_chains fuel st p max_len chain 0 =
      Ret (emits (lines_of st [] (enum fuel st p max_len 0)) st, chain') ∧
    length chain' = length chain.
Proof.
  intros H L Big Fu.
  destruct (print_chains_enum st max_len (length chain)
              (fun q d => ∃ wq, heap st !! q = Some wq ∧ 0 ≤ d ≤ Word.length wq)
              H) with (fuel := fuel) (p := p) (w := w) (depth := 0)
              (chain := chain) (ls := @nil (list (list Z)))
    as (chain' & E & Len & _).
  - intros q d (wq & Lq & B).
    pose proof (wf_heap_lookup _ _ _ H Lq) as (_ & _ & Lt). lia.
  - intros q d wq c q' (wq0 & Lq0 & B) _ Lq C F _.
    assert (wq0 = wq) as -> by congruence.
    destruct (found_length st wq c q' H (wf_heap_lookup _ _ _ H Lq) F)
      as (wq' & Lq' & _ & El).
    exists wq'. split; [done|lia].
  - exists w. split; [done|].
    pose proof (wf_word_length_nonneg w (wf_heap_lookup _ _ _ H L)). lia.
  - done.
  - done.
  - done.
  - exists chain'. rewrite emits_nil in E. simpl in E. by split.
Qed.

(** From a resolved entry, with its stored value as [max_len], a buffer
    of [max_len] slots is enough. *)
Lemma print_chains_resolved st p w fuel chain :
  wf_heap st → heap st !! p = Some w → 1 ≤ Word.dp w →
  Word.dp w ≤ Z.of_nat (length chain) →
  max_length st - Word.length w < Z.of_nat fuel →
  ∃ chain',
    print_chains fuel st p (Word.dp w) chain 0 =
      Ret (emits (lines_of st [] (enum fuel st p (Word.dp w) 0)) st, chain') ∧
    length chain' = length chain.
Proof.
  intros H L One Big Fu.
  destruct (print_chains_enum st (Word.dp w) (length chain)
              (fun q d => dp_at st q = Word.dp w - d ∧ 0 ≤ d ∧ 1 ≤ dp_at st q)
              H) with (fuel := fuel) (p := p) (w := w) (depth := 0)
              (chain := chain) (ls := @nil (list (list Z)))
    as (chain' & E & Len & _).
  - intros q d (Dq & B & Ge). lia.
  - intros q d wq c q' (Dq & B & Ge) Ne _ _ _ Dq'. lia.
  - rewrite (dp_at_lookup st p w L). lia.
  - done.
  - done.
  - done.
  - exists chain'. rewrite emits_nil in E. simpl in E. by split.
Qed.

Lemma fold_left_result_fault {A} (f : result A → Z → result A) (P : A → Prop)
    cs c0 :
  c0 ∈ cs → (∀ c, f Fault c = Fault) →
  (∀ a c, P a → f (Ret a) c = Fault ∨ ∃ a', f (Ret a) c = Ret a' ∧ P a') →
  (∀ a, P a → f (Ret a) c0 = Fault) →
  ∀ a, P a → fold_left f cs (Ret a) = Fault.
Proof.
  intros In HF Step At. induction cs as [|c cs IH]; intros a Pa.
  { by apply elem_of_nil in In. }
  simpl. apply elem_of_cons in In as [<-|In].
  - rewrite At by done. by apply fold_left_Fault.
  - destruct (Step a c Pa) as [->|(a' & -> & Pa')].
    + by apply fold_left_Fault.
    + by apply IH.
Qed.

(** From a resolved entry whose chains are longer than the buffer, the
    traversal reaches the first slot past the buffer. *)
Lemma print_chains_overflow st max_len (N : nat) :
  wf_heap st → memo_ok st → Z.of_nat N < max_len →
  ∀ fuel p w depth chain ls,
    heap st !! p = Some w → Word.dp w = max_len - depth →
    0 ≤ depth ≤ Z.of_nat N → length chain = N →
    max_length st - Word.length w < Z.of_nat fuel →
    print_chains fuel (emits ls st) p max_len chain depth = Fault.
Proof.
  intros H M Big.
  induction fuel as [|fuel IH]; intros p w depth chain ls L D B Len Fu.
  { pose proof (max_length_ge st p w L). lia. }
  cbn [print_chains]. unfold mbind, result_bind, read.
  cbn [heap emits]. rewrite L. unfold write_slot.
  case_decide as Dw; [|done].
  rewrite decide_False by lia.
  destruct (memo_attained st p w M L) as [[One _]|(q & (w' & c0 & L' & C0 & F0) & E)];
    [lia|lia|].
  assert (w' = w) as -> by congruence.
  apply (fold_left_result_fault _
           (fun a => (∃ ls', a.1 = emits ls' st) ∧ length a.2 = N) printable c0);
    [done|done| | |].
  - intros [st1 ch1] c [[ls' E1] L1]; cbn [fst snd] in *; subst st1.
    unfold print_step, mbind, result_bind, read. cbn [heap emits]. rewrite L.
    change (find_word (emits ls' st) (new_sorted w c))
      with (find_word st (new_sorted w c)).
    destruct (find_word st (new_sorted w c)) as [q'|] eqn:F.
    2:{ right. eexists. split; [done|]. split; [by eexists|done]. }
    destruct (found_length st w c q' H (wf_heap_lookup _ _ _ H L) F)
      as (wq' & Lq' & _ & El). rewrite Lq'.
    case_decide as Dq.
    2:{ right. eexists. split; [done|]. split; [by eexists|done]. }
    left. apply (IH q' wq'); [done|lia|lia|done|lia].
  - intros [st1 ch1] [[ls' E1] L1]; cbn [fst snd] in *; subst st1.
    unfold print_step, mbind, result_bind, read. cbn [heap emits]. rewrite L.
    change (find_word (emits ls' st) (new_sorted w c0))
      with (find_word st (new_sorted w c0)).
    rewrite F0.
    destruct (found_length st w c0 q H (wf_heap_lookup _ _ _ H L) F0)
      as (wq & Lq & _ & El). rewrite Lq.
    rewrite (dp_at_lookup st q wq Lq) in E.
    rewrite decide_True by lia.
    apply (IH q wq); [done|lia|lia|done|lia].
  - cbn [fst snd]. split; [by eexists|]. by rewrite length_insert.
Qed.

(** ** What the operations leave unchanged *)

(** [print_chains] only appends to the output. *)
Lemma print_chains_frame fuel :
  ∀ st p max_len chain depth st' chain',
    print_chains fuel st p max_len chain depth = Ret (st', chain') →
    ∃ ls, st' = emits ls st.
Proof.
  induction fuel as [|fuel IH]; intros st p max_len chain depth st' chain'; [done|].
  cbn [print_chains]. unfold mbind, result_bind.
  destruct (read st p) as [w| |] eqn:R; [|done..].
  destruct (write_slot chain depth (Word.original w)) as [ch| |]; [|done..].
  case_decide.
  { intros [= <- <-]. exists [take (Z.to_nat (depth + 1)) ch].
    unfold emit, emits. done. }
  intros E. revert E.
  apply (fold_left_result_inv _ (fun a => ∃ ls, a.1 = emits ls st) printable
           (fun _ => eq_refl) (fun _ => eq_refl) ) with (a := (st, ch))
           (a' := (st', chain')).
  - intros [st1 ch1] c [st2 ch2] [ls E1]; cbn [fst snd] in *.
    unfold print_step, mbind, result_bind.
    destruct (read st1 p) as [w1| |]; [|done..].
    destruct (find_word st1 (new_sorted w1 c)) as [q|].
    2:{ intros [= <- <-]. by exists ls. }
    destruct (read st1 q) as [wq| |]; [|done..].
    case_decide.
    2:{ intros [= <- <-]. by exists ls. }
    intros [ls2 ->]%IH. exists (ls ++ ls2). by rewrite E1, emits_emits.
  - exists []. by rewrite emits_nil.
Qed.

Lemma longest_chain_Ret_valid fuel st p st' r :
  longest_chain fuel st p = Ret (st', r) → is_Some (heap st !! p).
Proof.
  destruct fuel as [|fuel]; [done|]. cbn [longest_chain].
  unfold mbind, result_bind, read.
  destruct (heap st !! p); [by eexists|done].
Qed.

(** Invariant of the loop of [longest_chain] for what it keeps: every
    stored [dp], and the [dp] of every entry no longer than [w]. *)
Definition keeps (st : State) (w : Word.t) (a : State * Z) : Prop :=
  same_index st a.1 ∧ output a.1 = output st ∧
  (∀ x, dp_at st x ≠ -1 → dp_at a.1 x = dp_at st x) ∧
  (∀ x wx, heap st !! x = Some wx → Word.length wx ≤ Word.length w →
           dp_at a.1 x = dp_at st x).

(** [longest_chain] never overwrites a stored [dp], and leaves the [dp]
    of shorter entries alone. *)
Lemma longest_chain_keeps fuel :
  ∀ st p w st' r,
    wf_heap st → heap st !! p = Some w →
    longest_chain fuel st p = Ret (st', r) →
    output st' = output st ∧
    (∀ x, dp_at st x ≠ -1 → dp_at st' x = dp_at st x) ∧
    (∀ x wx, heap st !! x = Some wx → Word.length wx < Word.length w →
             dp_at st' x = dp_at st x).
Proof.
  induction fuel as [|fuel IH]; intros st p w st' r H L; [done|].
  cbn [longest_chain]. unfold mbind, result_bind, read. rewrite L.
  case_decide as D.
  { by intros [= <- <-]. }
  assert (dp_at st p = -1) as Dp.
  { rewrite (dp_at_lookup st p w L).
    destruct (decide (Word.dp w = -1)); [done|by destruct D]. }
  destruct (fold_left _ _ _) as [[st2 m]| |] eqn:E; [|done..].
  intros [= <- <-].
  assert (keeps st w (st2, m)) as (I & O & K & Fr).
  { revert E.
    apply (fold_left_result_inv _ (keeps st w) printable
             (fun _ => eq_refl) (fun _ => eq_refl)).
    2:{ split_and!; [apply same_index_refl|done..]. }
    intros [st1 m1] c [st3 m3] (I1 & O1 & K1 & Fr1); cbn [fst snd] in *.
    unfold chain_step, mbind, result_bind, read.
    destruct (same_index_lookup _ _ _ _ I1 L) as (w1 & L1 & E1).
    rewrite L1.
    destruct (find_word (tick st1) (new_sorted w1 c)) as [q|] eqn:F.
    2:{ intros [= <- <-].
        split_and!; cbn [fst snd]; done. }
    destruct (longest_chain fuel (tick st1) q) as [[st4 r4]| |] eqn:E4; [|done..].
    intros [= <- <-].
    pose proof (wf_heap_same_index _ _ I1 H) as H1.
    change (find_word st1 (new_sorted w1 c) = Some q) in F.
    destruct (found_length st1 w1 c q H1 (wf_heap_lookup _ _ _ H1 L1) F)
      as (wq & Lq & _ & El).
    destruct E1 as (_ & _ & El1).
    destruct (IH (tick st1) q wq st4 r4 H1 Lq E4) as (O4 & K4 & Fr4).
    change (dp_at (tick st1)) with (dp_at st1) in *.
    split_and!; cbn [fst snd].
    - eapply same_index_trans; [done|].
      eapply same_index_trans; [apply same_index_tick|].
      by eapply longest_chain_same_index.
    - by rewrite O4.
    - intros x N. rewrite K4, K1; [done..|by rewrite K1].
    - intros x wx Lx Le.
      destruct (same_index_lookup _ _ _ _ I1 Lx) as (wx1 & Lx1 & (_ & _ & Elx)).
      rewrite (Fr4 x wx1); [by apply (Fr1 x wx)|done|lia]. }
  cbn [fst snd] in *. split_and!.
  - by rewrite <- O.
  - intros x N. rewrite dp_at_set_dp_ne; [by apply K|]. by intros ->.
  - intros x wx Lx Lt. rewrite dp_at_set_dp_ne; [apply (Fr x wx); [done|lia]|].
    intros ->. assert (wx = w) as -> by congruence. lia.
Qed.

(** One operation of the program on its state. *)
Inductive op : State → State → Prop :=
| op_insert st word :
    Z.of_nat (length word) < MAX_WORD → op st (insert_word word st)
| op_resolve st fuel p st' r :
    longest_chain fuel st p = Ret (st', r) → op st st'
| op_print st fuel p max_len chain depth st' chain' :
    print_chains fuel st p max_len chain depth = Ret (st', chain') → op st st'.

(** [st'] is reached from [st] by any number of operations. *)
Definition later : State → State → Prop := rtc op.

(** The record at an address keeps its word and, once set, its [dp]. *)
Definition persists (st st' : State) : Prop :=
  ∀ x w, heap st !! x = Some w →
         ∃ w', heap st' !! x = Some w' ∧ same_entry w w' ∧
               (Word.dp w ≠ -1 → Word.dp w' = Word.dp w).

Lemma op_preserves st st' :
  wf_heap st → wf_table st → op st st' →
  wf_heap st' ∧ wf_table st' ∧ persists st st'.
Proof.
  intros H T O.
  destruct O as [st0 word Fit|st0 fuel p st1 r E|st0 fuel p max_len chain depth st1 chain' E].
  - split_and!; [by apply wf_heap_insert_word|by apply wf_table_insert_word|].
    intros x w L. exists w. split_and!; [|done..].
    by apply lookup_app_l_Some.
  - pose proof (longest_chain_same_index _ _ _ _ _ E) as I.
    destruct (longest_chain_Ret_valid _ _ _ _ _ E) as [w L].
    destruct (longest_chain_keeps fuel st0 p w st1 r H L E) as (_ & K & _).
    split_and!; [by eapply wf_heap_same_index|by eapply wf_table_same_index|].
    intros x wx Lx. destruct (same_index_lookup _ _ _ _ I Lx) as (wx' & Lx' & Ex).
    exists wx'. split_and!; [done..|]. intros N.
    rewrite <- (dp_at_lookup st1 x wx' Lx'), <- (dp_at_lookup st0 x wx Lx).
    apply K. by rewrite (dp_at_lookup st0 x wx Lx).
  - apply print_chains_frame in E as [ls ->].
    split_and!; [done..|]. intros x w L. by exists w.
Qed.

Lemma later_preserves st st' :
  wf_heap st → wf_table st → later st st' →
  wf_heap st' ∧ wf_table st' ∧ persists st st'.
Proof.
  intros H T L. induction L as [st|st1 st2 st3 O _ IH].
  - split_and!; [done..|]. intros x w L. by exists w.
  - destruct (op_preserves st1 st2 H T O) as (H2 & T2 & P12).
    destruct (IH H2 T2) as (H3 & T3 & P23).
    split_and!; [done..|]. intros x w L.
    destruct (P12 x w L) as (w2 & L2 & E2 & D2).
    destruct (P23 x w2 L2) as (w3 & L3 & E3 & D3).
    exists w3. split_and!; [done|by eapply same_entry_trans|].
    intros N. rewrite D3; [by apply D2|]. by rewrite D2.
Qed.

(** ** Resolution and longest chains *)

Lemma longest_chain_is_longest st p w fuel :
  consistent st → heap st !! p = Some w →
  max_length st - Word.length w < Z.of_nat fuel →
  ∃ st' r, longest_chain fuel st p = Ret (st', r) ∧
           consistent st' ∧ evolves st st' ∧ dp_at st' p = r ∧ r ≠ -1 ∧
           is_longest st p r.
Proof.
  intros C L Fu.
  destruct (longest_chain_resolves fuel st p w C L Fu)
    as (st' & r & E & C' & Ev & D & N & _).
  exists st', r. split_and!; try done.
  pose proof Ev as (I & _).
  destruct (same_index_lookup _ _ _ _ I L) as (w' & L' & _).
  rewrite (dp_at_lookup st' p w' L') in D. subst r.
  apply (is_longest_same_index st' st); [by apply same_index_sym|].
  by apply resolved_is_longest.
Qed.



Lemma step_new_sorted st p w c q :
  wf_heap st → heap st !! p = Some w → 33 ≤ c ≤ 126 →
  find_word st (merge_insert c (sort_string (Word.original w))) = Some q →
  step st p q.
Proof.
  intros H L C F. exists w, c. split_and!; [done|by apply elem_of_printable|].
  by rewrite wf_word_new_sorted by (by eapply wf_heap_lookup).
Qed.


(** ** Chains of words *)

(** A transition between words per the index: [b] is the word the lookup
    returns for the canonical form of [a] with [c] inserted. *)
Definition transition (st : State) (a b : cstring) : Prop :=
  ∃ c q, 33 ≤ c ≤ 126 ∧
         find_word st (merge_insert c (sort_string a)) = Some q ∧
         spelling st q = b.

Lemma spelling_lookup st p w : heap st !! p = Some w → spelling st p = Word.original w.
Proof. unfold spelling. by intros ->. Qed.

Lemma word_chain_path st :
  wf_heap st →
  ∀ ws p w, heap st !! p = Some w → head ws = Some (Word.original w) →
            adjacent (transition st) ws →
            ∃ path, chain_from st p path ∧ ws = map (spelling st) path.
Proof.
  intros H. induction ws as [|a ws IH]; intros p w L Hd Adj; [done|].
  simpl in Hd. injection Hd as ->.
  destruct ws as [|b ws].
  - exists [p]. split; [by econstructor|].
    simpl. by rewrite (spelling_lookup st p w L).
  - destruct Adj as [(c & q & C & F & Sp) Adj].
    pose proof F as (wq & Lq & _)%find_word_Some.
    rewrite (spelling_lookup st q wq Lq) in Sp. subst b.
    destruct (IH q wq Lq eq_refl Adj) as (path & Ch & E).
    exists (p :: path). split.
    + econstructor 2; [by eapply step_new_sorted|done].
    + simpl. by rewrite (spelling_lookup st p w L), E.
Qed.

Lemma path_word_chain st p path :
  wf_heap st → chain_from st p path →
  adjacent (transition st) (map (spelling st) path).
Proof.
  intros H. induction 1 as [p w L|p q l S Ch IH]; simpl; [done|].
  split; [|done].
  destruct (chain_from_head _ _ _ Ch) as [l' ->]. simpl.
  destruct S as (w & c & L & C & F).
  exists c, q. split; [by apply elem_of_printable|]. split; [|done].
  rewrite (spelling_lookup st p w L).
  by rewrite <- wf_word_new_sorted by (by eapply wf_heap_lookup).
Qed.

(** ** Example dictionaries *)

Definition demo : State :=
  load_dictionary [str "sail"; str "nails"; str "aliens"].

(** Two successors of the same length: [a -> ab] and [a -> ac]. *)
Definition fork : State :=
  load_dictionary [str "a"; str "ab"; str "ac"].

(** Two words with one canonical form. *)
Definition twins : State :=
  load_dictionary [str "abc"; str "bca"].

(** The state [main] prints from: the start entry resolved. *)
Definition resolved_from (fuel : nat) (st : State) (p : ptr) : State :=
  match longest_chain fuel st p with
  | Ret (st', _) => st'
  | _ => st
  end.

Lemma short_words_fit (words : list (list Z)) :
  forallb (fun word => Z.of_nat (length word) <? MAX_WORD) words = true →
  Forall (fun word => Z.of_nat (length word) < MAX_WORD) words.
Proof.
  rewrite forallb_forall, Forall_forall. intros F word In.
  apply Z.ltb_lt, F. by apply list_elem_of_In.
Qed.

Lemma resolved_from_consistent fuel st p w :
  consistent st → heap st !! p = Some w →
  max_length st - Word.length w < Z.of_nat fuel →
  consistent (resolved_from fuel st p).
Proof.
  intros C L Fu. unfold resolved_from.
  by destruct (longest_chain_resolves fuel st p w C L Fu) as (st2 & r2 & -> & C2 & _).
Qed.

(** ** The resolver *)









(** ** The index under duplicates *)

(** C4. Addresses grow with insertion.  When the records at [p1 < p2]
    have the same canonical form, in every later state the lookup of that
    form returns the most recently inserted record with it (at [p2] or
    after), and no lookup and no transition ever returns the earlier
    record [p1] again. *)
Theorem lookup_returns_most_recent st p1 p2 w1 w2 st' :
  wf_heap st → wf_table st →
  heap st !! p1 = Some w1 → heap st !! p2 = Some w2 → (p1 < p2)%nat →
  Word.sorted w1 = Word.sorted w2 →
  later st st' →
  (∃ p w, find_word st' (Word.sorted w1) = Some p ∧
          heap st' !! p = Some w ∧ Word.sorted w = Word.sorted w1 ∧
          (p2 ≤ p)%nat ∧
          ∀ p' w', heap st' !! p' = Some w' →
                   Word.sorted w' = Word.sorted w1 → (p' ≤ p)%nat) ∧
  (∀ key, find_word st' key ≠ Some p1) ∧
  (∀ q, ¬ step st' q p1).
Proof.
  intros H T L1 L2 Lt E La.
  destruct (later_preserves st st' H T La) as (H' & T' & P).
  destruct (P p1 w1 L1) as (w1' & L1' & (_ & E1 & _) & _).
  destruct (P p2 w2 L2) as (w2' & L2' & (_ & E2 & _) & _).
  assert (No : ∀ key, find_word st' key ≠ Some p1).
  { intros key F. apply (find_word_spec st' key p1 T') in F as (w & L & Ek & Max).
    assert (w = w1') as -> by congruence.
    specialize (Max p2 w2' L2'). rewrite E2, <- E, <- E1 in Max.
    specialize (Max Ek). lia. }
  split_and!; [|done|].
  - destruct (find_word st' (Word.sorted w1)) as [p|] eqn:F.
    + pose proof F as (w & L & Ek & Max)%(find_word_spec st' _ p T').
      exists p, w. split_and!; [done..| |done].
      apply (Max p2 w2'); [done|congruence].
    + exfalso. rewrite (find_word_None st' _ T') in F.
      apply (F p2 w2' L2'). congruence.
  - intros q (w & c & _ & _ & F). by apply (No _ F).
Qed.

Lemma lookup_returns_most_recent_witness :
  (∃ p w, find_word twins (sort_string (str "abc")) = Some p ∧
          heap twins !! p = Some w ∧ Word.sorted w = sort_string (str "abc") ∧
          (1 ≤ p)%nat ∧
          ∀ p' w', heap twins !! p' = Some w' →
                   Word.sorted w' = sort_string (str "abc") → (p' ≤ p)%nat) ∧
  (∀ key, find_word twins key ≠ Some 0%nat) ∧
  (∀ q, ¬ step twins q 0%nat).
Proof.
  apply (lookup_returns_most_recent twins 0%nat 1%nat
           (Word.mk (str "abc") (sort_string (str "abc")) 3 (-1))
           (Word.mk (str "bca") (sort_string (str "bca")) 3 (-1)) twins).
  - apply load_dictionary_consistent, short_words_fit. by vm_compute.
  - apply load_dictionary_consistent, short_words_fit. by vm_compute.
  - by vm_compute.
  - by vm_compute.
  - lia.
  - by vm_compute.
  - constructor.
Defined.

(** ** The enumerator *)

(** C9. [print_chains] computes no chain length and changes nothing but
    the output: the records, the table and the count of expansions are
    the same after it.  And whatever operations follow a state, every
    record keeps its word, its canonical form and its length, and a
    stored [dp] is never changed. *)
Theorem print_chains_changes_nothing st fuel p max_len chain depth st1 chain1 st2 :
  wf_heap st → wf_table st →
  print_chains fuel st p max_len chain depth = Ret (st1, chain1) →
  later st st2 →
  (heap st1 = heap st ∧ hash_table st1 = hash_table st ∧
   expansions st1 = expansions st) ∧
  (∀ x w, heap st !! x = Some w →
          ∃ w', heap st2 !! x = Some w' ∧
                Word.original w' = Word.original w ∧
                Word.sorted w' = Word.sorted w ∧
                Word.length w' = Word.length w ∧
                (Word.dp w ≠ -1 → Word.dp w' = Word.dp w)).
Proof.
  intros H T E La. split.
  - by apply print_chains_frame in E as [ls ->].
  - destruct (later_preserves st st2 H T La) as (_ & _ & P).
    intros x w L. destruct (P x w L) as (w' & L' & (E1 & E2 & E3) & D).
    by exists w'.
Qed.

(** The result of a run of [print_chains], for stating examples. *)
Definition printed (fuel : nat) (st : State) (p : ptr) (max_len : Z)
    (chain : list cstring) : State * list cstring :=
  match print_chains fuel st p max_len chain 0 with
  | Ret a => a
  | _ => (st, chain)
  end.

Definition demo_resolved : State := resolved_from 3 demo 0.
Definition fork_resolved : State := resolved_from 2 fork 0.

Lemma demo_resolved_consistent : consistent demo_resolved.
Proof.
  apply (resolved_from_consistent 3 demo 0%nat
           (Word.mk (str "sail") (sort_string (str "sail")) 4 (-1))).
  - apply load_dictionary_consistent, short_words_fit. by vm_compute.
  - by vm_compute.
  - by vm_compute.
Qed.

Lemma fork_resolved_consistent : consistent fork_resolved.
Proof.
  apply (resolved_from_consistent 2 fork 0%nat
           (Word.mk (str "a") (sort_string (str "a")) 1 (-1))).
  - apply load_dictionary_consistent, short_words_fit. by vm_compute.
  - by vm_compute.
  - by vm_compute.
Qed.

Lemma print_chains_changes_nothing_witness :
  let st1 := (printed 3 demo_resolved 0%nat 3 main_chain).1 in
  (heap st1 = heap demo_resolved ∧ hash_table st1 = hash_table demo_resolved ∧
   expansions st1 = expansions demo_resolved) ∧
  (∀ x w, heap demo_resolved !! x = Some w →
          ∃ w', heap st1 !! x = Some w' ∧
                Word.original w' = Word.original w ∧
                Word.sorted w' = Word.sorted w ∧
                Word.length w' = Word.length w ∧
                (Word.dp w ≠ -1 → Word.dp w' = Word.dp w)).
Proof.
  apply (print_chains_changes_nothing demo_resolved 3 0%nat 3 main_chain 0
           (printed 3 demo_resolved 0%nat 3 main_chain).1
           (printed 3 demo_resolved 0%nat 3 main_chain).2
           (printed 3 demo_resolved 0%nat 3 main_chain).1).
  - apply demo_resolved_consistent.
  - apply demo_resolved_consistent.
  - by vm_compute.
  - apply rtc_once.
    apply (op_print demo_resolved 3 0%nat 3 main_chain 0 _
             (printed 3 demo_resolved 0%nat 3 main_chain).2).
    by vm_compute.
Defined.

(** C10. The path buffer has a fixed number of slots, 256 in [main].
    From a resolved entry with [max_len] its stored value, [print_chains]
    writes slot [depth] at every depth from 0 to [max_len - 1]: with a
    buffer of [n] slots it leaves the buffer exactly when [max_len > n],
    and returns when [max_len <= n].  So every access to the buffer of
    [main] is in bounds if and only if [max_len <= 256]. *)
Theorem path_buffer_bound st p w fuel chain :
  consistent st → heap st !! p = Some w → Word.dp w ≠ -1 →
  max_length st - Word.length w < Z.of_nat fuel →
  (print_chains fuel st p (Word.dp w) chain 0 = Fault ↔
   Z.of_nat (length chain) < Word.dp w) ∧
  ((∃ st' chain', print_chains fuel st p (Word.dp w) chain 0 = Ret (st', chain')) ↔
   Word.dp w ≤ Z.of_nat (length chain)) ∧
  length main_chain = 256%nat.
Proof.
  intros (H & T & M) L D Fu.
  assert (1 ≤ Word.dp w) as One.
  { destruct (M p w L D) as [_ ->]. apply max_list1_ge. }
  assert (Over : Z.of_nat (length chain) < Word.dp w →
                 print_chains fuel st p (Word.dp w) chain 0 = Fault).
  { intros Lt.
    pose proof (print_chains_overflow st (Word.dp w) (length chain) H M Lt
                  fuel p w 0 chain [] L) as F.
    rewrite emits_nil in F. apply F; [lia|lia|done|done]. }
  assert (Fits : Word.dp w ≤ Z.of_nat (length chain) →
                 ∃ st' chain', print_chains fuel st p (Word.dp w) chain 0
                               = Ret (st', chain')).
  { intros Le.
    destruct (print_chains_resolved st p w fuel chain H L One Le Fu)
      as (chain' & E & _).
    by eexists _, chain'. }
  split_and!.
  - split; [|done]. intros F.
    destruct (decide (Z.of_nat (length chain) < Word.dp w)) as [|Ge]; [done|].
    destruct Fits as (st' & chain' & E); [lia|]. congruence.
  - split; [|done]. intros (st' & chain' & E).
    destruct (decide (Word.dp w ≤ Z.of_nat (length chain))) as [|Gt]; [done|].
    rewrite Over in E by lia. done.
  - unfold main_chain. by rewrite length_replicate.
Qed.

Lemma path_buffer_bound_witness :
  (print_chains 3 demo_resolved 0%nat 3 [[]; []] 0 = Fault ↔
   Z.of_nat (length [@nil Z; []]) < 3) ∧
  ((∃ st' chain', print_chains 3 demo_resolved 0%nat 3 [[]; []] 0
                  = Ret (st', chain')) ↔
   3 ≤ Z.of_nat (length [@nil Z; []])) ∧
  length main_chain = 256%nat.
Proof.
  apply (path_buffer_bound demo_resolved 0%nat
           (Word.mk (str "sail") (sort_string (str "sail")) 4 3) 3 [[]; []]).
  - apply demo_resolved_consistent.
  - by vm_compute.
  - by vm_compute.
  - by vm_compute.
Defined.

Lemma elem_of_lines_of st prefix l line :
  line ∈ lines_of st prefix l ↔
  ∃ x, x ∈ l ∧ line = prefix ++ map (spelling st) x.2.
Proof.
  unfold lines_of. rewrite list_elem_of_fmap. split.
  - intros (x & -> & In). by exists x.
  - intros (x & In & ->). by exists x.
Qed.

(** C3. From a resolved entry, with [max_len] its stored value, every
    line [print_chains] prints has exactly [max_len] words, starts with
    the spelling of the entry, links consecutive words by a transition of
    the index, so that the canonical form of each word is the one of its
    predecessor with one character of 33..126 inserted, and ends at an
    entry on which [longest_chain] returns 1. *)
Theorem print_chains_sound st p w fuel :
  consistent st → heap st !! p = Some w → Word.dp w ≠ -1 →
  max_length st - Word.length w < Z.of_nat fuel →
  ∃ st' chain' lines,
    print_chains fuel st p (Word.dp w) main_chain 0 = Ret (st', chain') ∧
    output st' = output st ++ lines ∧
    ∀ line, line ∈ lines →
      Z.of_nat (length line) = Word.dp w ∧
      head line = Some (Word.original w) ∧
      adjacent (transition st) line ∧
      adjacent derives line ∧
      ∃ path e, chain_from st p path ∧ line = map (spelling st) path ∧
                last path = Some e ∧ longest_chain fuel st e = Ret (st, 1).
Proof.
  intros (H & T & M) L D Fu.
  destruct (print_chains_any st p w fuel main_chain (Word.dp w) H L)
    as (chain' & E & _); [unfold main_chain; by rewrite length_replicate|done|].
  eexists _, chain', _. split; [done|]. split; [done|].
  intros line (x & In & ->)%elem_of_lines_of. simpl.
  destruct (enum_sound st (Word.dp w) fuel p w 0 x L In) as (W & Len & Last).
  destruct Last as (e & La & De); [rewrite (dp_at_lookup st p w L); lia|].
  pose proof (walk_chain_from _ _ _ _ W) as Ch.
  split_and!.
  - rewrite length_map. lia.
  - destruct (chain_from_head _ _ _ Ch) as [l' ->]. simpl.
    by rewrite (spelling_lookup st p w L).
  - by eapply path_word_chain.
  - by eapply walk_derives.
  - exists x.2, e. split_and!; [done..|].
    destruct (dp_at_valid st e) as [we Le]; [by rewrite De|].
    destruct fuel as [|fuel]; [pose proof (max_length_ge st p w L); lia|].
    cbn [longest_chain]. unfold mbind, result_bind, read. rewrite Le.
    rewrite (dp_at_lookup st e we Le) in De.
    rewrite decide_True by lia. by rewrite De.
Qed.

Lemma print_chains_sound_witness :
  ∃ st' chain' lines,
    print_chains 3 demo_resolved 0%nat 3 main_chain 0 = Ret (st', chain') ∧
    output st' = output demo_resolved ++ lines ∧
    ∀ line, line ∈ lines →
      Z.of_nat (length line) = 3 ∧
      head line = Some (str "sail") ∧
      adjacent (transition demo_resolved) line ∧
      adjacent derives line ∧
      ∃ path e, chain_from demo_resolved 0%nat path ∧
                line = map (spelling demo_resolved) path ∧
                last path = Some e ∧
                longest_chain 3 demo_resolved e = Ret (demo_resolved, 1).
Proof.
  apply (print_chains_sound demo_resolved 0%nat
           (Word.mk (str "sail") (sort_string (str "sail")) 4 3) 3).
  - apply demo_resolved_consistent.
  - by vm_compute.
  - by vm_compute.
  - by vm_compute.
Defined.



(** C8. For every entry and every [max_len], the lines [print_chains]
    prints are, in order, the chains of a list of sequences of inserted
    characters that is strictly increasing in the lexicographic order:
    at each branching point the smaller character comes first. *)
Theorem print_chains_order st p w fuel max_len :
  wf_heap st → heap st !! p = Some w →
  max_length st - Word.length w < Z.of_nat fuel →
  ∃ st' chain' lines choices,
    print_chains fuel st p max_len main_chain 0 = Ret (st', chain') ∧
    output st' = output st ++ lines ∧
    Forall2 (fun cs line => ∃ path, walk st p cs path ∧
                                    line = map (spelling st) path)
            choices lines ∧
    StronglySorted lex_lt choices.
Proof.
  intros H L Fu.
  destruct (print_chains_any st p w fuel main_chain max_len H L)
    as (chain' & E & _); [unfold main_chain; by rewrite length_replicate|done|].
  eexists _, chain', _, (map fst (enum fuel st p max_len 0)).
  split; [done|]. split; [done|]. split; [|apply enum_sorted].
  unfold lines_of. apply Forall2_fmap, Forall_Forall2_diag, Forall_forall.
  intros x In. exists x.2. split; [|done].
  by destruct (enum_sound st max_len fuel p w 0 x L In) as (W & _).
Qed.

Lemma print_chains_order_witness :
  ∃ st' chain' lines choices,
    print_chains 2 fork_resolved 0%nat 2 main_chain 0 = Ret (st', chain') ∧
    output st' = output fork_resolved ++ lines ∧
    Forall2 (fun cs line => ∃ path, walk fork_resolved 0%nat cs path ∧
                                    line = map (spelling fork_resolved) path)
            choices lines ∧
    StronglySorted lex_lt choices.
Proof.
  apply (print_chains_order fork_resolved 0%nat
           (Word.mk (str "a") (sort_string (str "a")) 1 2) 2 2).
  - apply fork_resolved_consistent.
  - by vm_compute.
  - by vm_compute.
Defined.

(** * Further properties of the code *)

(** ** [sort_string] and [hash] *)

Lemma shift_insert_desc key l :
  StronglySorted (fun x y : Z => y ≤ x) l →
  StronglySorted (fun x y : Z => y ≤ x) (shift_insert key l).
Proof.
  induction 1 as [|x l S IH All]; simpl; [repeat constructor|].
  destruct (Z.gtb_spec x key) as [Gt|Le].
  - constructor; [done|]. rewrite shift_insert_perm.
    constructor; [lia|done].
  - constructor; [by constructor|].
    constructor; [lia|]. eapply Forall_impl; [done|]. simpl. intros; lia.
Qed.

Lemma sort_loop_desc src acc :
  StronglySorted (fun x y : Z => y ≤ x) acc →
  StronglySorted (fun x y : Z => y ≤ x)
    (fold_left (fun a key => shift_insert key a) src acc).
Proof.
  revert acc. induction src as [|x src IH]; intros acc S; simpl; [done|].
  by apply IH, shift_insert_desc.
Qed.

Lemma rev_desc_sorted (l : list Z) :
  StronglySorted (fun x y : Z => y ≤ x) l → StronglySorted Z.le (rev l).
Proof.
  induction 1 as [|x l Srt IH All]; simpl; [constructor|].
  apply StronglySorted_app; split_and!.
  - intros a b Ina ->%list_elem_of_singleton.
    rewrite Forall_forall in All. apply All.
    apply list_elem_of_In, in_rev, list_elem_of_In. exact Ina.
  - done.
  - apply SSorted_cons; [apply SSorted_nil|apply Forall_nil_2].
Qed.

Lemma sort_string_sorted src : StronglySorted Z.le (sort_string src).
Proof. apply rev_desc_sorted, sort_loop_desc. constructor. Qed.

Lemma sort_string_eq_perm a b : sort_string a = sort_string b ↔ a ≡ₚ b.
Proof.
  split.
  - intros E. by rewrite <- (sort_string_perm a), E, sort_string_perm.
  - intros P. apply (StronglySorted_unique Z.le).
    + apply sort_string_sorted.
    + apply sort_string_sorted.
    + by rewrite !sort_string_perm.
Qed.

(** X1. The canonical form is the word's characters in non-decreasing order:
    [sort_string] returns a sorted permutation of its argument. *)
Theorem sort_string_sorted_permutation src :
  StronglySorted Z.le (sort_string src) ∧ sort_string src ≡ₚ src ∧
  length (sort_string src) = length src.
Proof.
  split_and!.
  - apply sort_string_sorted.
  - apply sort_string_perm.
  - apply sort_string_length.
Qed.

(** X2. Two words have the same canonical form exactly when they are
    anagrams of each other, and sorting a canonical form changes
    nothing. *)
Theorem sort_string_anagram a b :
  (sort_string a = sort_string b ↔ a ≡ₚ b) ∧
  sort_string (sort_string a) = sort_string a.
Proof.
  split.
  - apply sort_string_eq_perm.
  - apply sort_string_eq_perm, sort_string_perm.
Qed.

(** X3. One round of the hash is [h * 33 + c] in 64-bit arithmetic, and the
    hash of every string is an index of the table. *)
Theorem hash_in_table str c h :
  hash_step h c = (h * 33 + c) mod 2 ^ 64 ∧ 0 ≤ hash str < HASH_SIZE.
Proof.
  split.
  - unfold hash_step. rewrite Z.shiftl_mul_pow2 by lia. f_equal. lia.
  - unfold hash. apply Z.mod_pos_bound. unfold HASH_SIZE. lia.
Qed.

(** ** Merge insertion *)

Lemma merge_insert_sorted c s :
  StronglySorted Z.le s → StronglySorted Z.le (merge_insert c s).
Proof.
  induction 1 as [|x s S IH All]; simpl; [repeat constructor|].
  destruct (Z.ltb_spec x c) as [Lt|Ge].
  - constructor; [done|]. rewrite merge_insert_perm.
    constructor; [lia|done].
  - constructor; [by constructor|].
    constructor; [lia|]. eapply Forall_impl; [done|]. simpl. intros; lia.
Qed.

Lemma new_sorted_canonical w c :
  wf_word w → new_sorted w c = sort_string (Word.original w ++ [c]).
Proof.
  intros W. rewrite wf_word_new_sorted by done.
  apply (StronglySorted_unique Z.le).
  - apply merge_insert_sorted, sort_string_sorted.
  - apply sort_string_sorted.
  - rewrite merge_insert_perm, !sort_string_perm.
    by rewrite Permutation_app_comm.
Qed.

(** X4. The merge insertion of the two loops gives what sorting the word with
    the character appended would give: [new_sorted] is the canonical
    form of the word plus [c], whatever the character. *)
Theorem new_sorted_is_canonical w c :
  wf_word w →
  new_sorted w c = sort_string (Word.original w ++ [c]) ∧
  StronglySorted Z.le (new_sorted w c) ∧
  new_sorted w c ≡ₚ c :: Word.original w.
Proof.
  intros W. split_and!.
  - by apply new_sorted_canonical.
  - rewrite wf_word_new_sorted by done.
    apply merge_insert_sorted, sort_string_sorted.
  - rewrite wf_word_new_sorted by done.
    by rewrite merge_insert_perm, sort_string_perm.
Qed.

Lemma new_sorted_is_canonical_witness :
  new_sorted (Word.mk (str "sail") (sort_string (str "sail")) 4 (-1)) 110
  = sort_string (str "sail" ++ [110]) ∧
  StronglySorted Z.le
    (new_sorted (Word.mk (str "sail") (sort_string (str "sail")) 4 (-1)) 110) ∧
  new_sorted (Word.mk (str "sail") (sort_string (str "sail")) 4 (-1)) 110
  ≡ₚ 110 :: str "sail".
Proof.
  apply (new_sorted_is_canonical
           (Word.mk (str "sail") (sort_string (str "sail")) 4 (-1)) 110).
  split_and!; by vm_compute.
Defined.

(** ** Insertion and lookup *)

Definition entry_of (word : cstring) : Word.t :=
  Word.mk word (sort_string word) (Z.of_nat (length word)) (-1).

Lemma load_from_heap words st :
  heap (fold_left (fun st word => insert_word word st) words st)
  = heap st ++ map entry_of words.
Proof.
  revert st. induction words as [|word words IH]; intros st; simpl.
  - by rewrite app_nil_r.
  - rewrite IH. simpl. by rewrite <- app_assoc.
Qed.

Lemma load_dictionary_heap words :
  heap (load_dictionary words) = map entry_of words.
Proof. unfold load_dictionary. by rewrite load_from_heap. Qed.

Lemma load_from_wf_table words st :
  wf_table st → wf_table (fold_left (fun st word => insert_word word st) words st).
Proof.
  revert st. induction words as [|word words IH]; intros st T; simpl; [done|].
  by apply IH, wf_table_insert_word.
Qed.

Lemma load_dictionary_wf_table words : wf_table (load_dictionary words).
Proof. apply load_from_wf_table, wf_table_initial. Qed.

(** X5. Round trip: right after [insert_word word] the lookup of the word's
    canonical form returns the new record, which holds the word and an
    unset [dp]; this holds whatever else hashes to the same bucket. *)
Theorem insert_then_find word st :
  wf_table st →
  find_word (insert_word word st) (sort_string word) = Some (length (heap st)) ∧
  heap (insert_word word st) !! length (heap st) = Some (entry_of word).
Proof.
  intros T.
  assert (L : heap (insert_word word st) !! length (heap st) = Some (entry_of word)).
  { unfold insert_word; simpl. by rewrite lookup_app_r, Nat.sub_diag by lia. }
  split; [|done].
  apply (find_word_spec _ _ _ (wf_table_insert_word word st T)).
  exists (entry_of word). split_and!; [done..|].
  intros p' w' L' _. apply lookup_lt_Some in L'.
  unfold insert_word in L'; simpl in L'. rewrite length_app in L'. simpl in L'. lia.
Qed.

Lemma insert_then_find_witness :
  find_word (insert_word (str "bca") (load_dictionary [str "abc"]))
    (sort_string (str "bca"))
  = Some (length (heap (load_dictionary [str "abc"]))) ∧
  heap (insert_word (str "bca") (load_dictionary [str "abc"]))
    !! length (heap (load_dictionary [str "abc"])) = Some (entry_of (str "bca")).
Proof.
  apply (insert_then_find (str "bca") (load_dictionary [str "abc"])).
  apply load_dictionary_wf_table.
Defined.

(** X6. Inserting a word leaves the lookup of every other canonical form as
    it was, also for the forms that share the word's bucket. *)
Theorem insert_keeps_other_lookups word st key :
  wf_table st → key ≠ sort_string word →
  find_word (insert_word word st) key = find_word st key.
Proof.
  intros T Ne.
  pose proof (wf_table_insert_word word st T) as T'.
  assert (Old : ∀ p w, heap st !! p = Some w →
                       heap (insert_word word st) !! p = Some w).
  { intros p w L. by apply lookup_app_l_Some. }
  assert (New : ∀ p w, heap (insert_word word st) !! p = Some w →
                       Word.sorted w = key → heap st !! p = Some w).
  { intros p w L E. unfold insert_word in L; simpl in L.
    destruct (decide (p < length (heap st))%nat) as [Lt|Ge].
    - by rewrite lookup_app_l in L.
    - rewrite lookup_app_r in L by lia.
      destruct (p - length (heap st))%nat as [|n]; simpl in L; [|done].
      injection L as <-. simpl in E. congruence. }
  destruct (find_word st key) as [p|] eqn:F.
  - apply (find_word_spec _ _ _ T) in F as (w & L & E & Max).
    apply (find_word_spec _ _ _ T'). exists w. split_and!; [by apply Old|done|].
    intros p' w' L' E'. apply (Max p' w'); [by apply New|done].
  - rewrite (find_word_None _ _ T) in F. apply (find_word_None _ _ T').
    intros p w L E. by apply (F p w); [apply New|].
Qed.

Lemma insert_keeps_other_lookups_witness :
  find_word (insert_word (str "nails") (load_dictionary [str "sail"]))
    (sort_string (str "sail"))
  = find_word (load_dictionary [str "sail"]) (sort_string (str "sail")).
Proof.
  apply (insert_keeps_other_lookups (str "nails") (load_dictionary [str "sail"])).
  - apply load_dictionary_wf_table.
  - by vm_compute.
Defined.

(** X7. Lookup is membership up to anagrams: in a loaded dictionary the
    lookup of the canonical form of [x] returns the position of the last
    word of the list that is an anagram of [x], and nothing when no word
    is one (in particular in the empty dictionary). *)
Theorem lookup_by_anagram words x :
  match find_word (load_dictionary words) (sort_string x) with
  | Some p => ∃ word, words !! p = Some word ∧ word ≡ₚ x ∧
                      ∀ p' word', words !! p' = Some word' → word' ≡ₚ x →
                                  (p' ≤ p)%nat
  | None => ∀ word, word ∈ words → ¬ word ≡ₚ x
  end.
Proof.
  pose proof (load_dictionary_wf_table words) as T.
  destruct (find_word (load_dictionary words) (sort_string x)) as [p|] eqn:F.
  - apply (find_word_spec _ _ _ T) in F as (w & L & E & Max).
    rewrite load_dictionary_heap, list_lookup_fmap in L.
    destruct (words !! p) as [word|] eqn:Lw; [|done].
    simpl in L. injection L as <-. simpl in E.
    exists word. split_and!; [done|by apply sort_string_eq_perm|].
    intros p' word' L' P. apply (Max p' (entry_of word')).
    + by rewrite load_dictionary_heap, list_lookup_fmap, L'.
    + simpl. by apply sort_string_eq_perm.
  - rewrite (find_word_None _ _ T) in F.
    intros word In P. apply list_elem_of_lookup in In as [p L].
    apply (F p (entry_of word)).
    + by rewrite load_dictionary_heap, list_lookup_fmap, L.
    + simpl. by apply sort_string_eq_perm.
Qed.

(** X8. The lookup made for character [c] finds a word exactly when the
    dictionary has an anagram of the current word with [c] added, and
    the word found is such an anagram. *)
Theorem successor_is_added_letter st p w c :
  wf_heap st → wf_table st → heap st !! p = Some w →
  match find_word st (new_sorted w c) with
  | Some q => ∃ wq, heap st !! q = Some wq ∧
                    Word.original wq ≡ₚ Word.original w ++ [c]
  | None => ∀ x wx, heap st !! x = Some wx →
                    ¬ Word.original wx ≡ₚ Word.original w ++ [c]
  end.
Proof.
  intros H T L.
  rewrite (new_sorted_canonical w c) by (by eapply wf_heap_lookup).
  destruct (find_word st _) as [q|] eqn:F.
  - apply find_word_Some in F as (wq & Lq & E). exists wq. split; [done|].
    apply sort_string_eq_perm.
    by destruct (wf_heap_lookup _ _ _ H Lq) as (<- & _).
  - rewrite (find_word_None _ _ T) in F. intros x wx Lx P.
    apply (F x wx Lx).
    destruct (wf_heap_lookup _ _ _ H Lx) as (-> & _).
    by apply sort_string_eq_perm.
Qed.

Lemma successor_is_added_letter_witness :
  match find_word demo (new_sorted (entry_of (str "sail")) 110) with
  | Some q => ∃ wq, heap demo !! q = Some wq ∧
                    Word.original wq ≡ₚ str "sail" ++ [110]
  | None => ∀ x wx, heap demo !! x = Some wx →
                    ¬ Word.original wx ≡ₚ str "sail" ++ [110]
  end.
Proof.
  apply (successor_is_added_letter demo 0%nat (entry_of (str "sail")) 110).
  - apply load_dictionary_consistent, short_words_fit. by vm_compute.
  - apply load_dictionary_wf_table.
  - by vm_compute.
Defined.

(** ** Reading the dictionary *)

(** [fgets(word, MAX_WORD, file)] on the rest of the file: at most [n]
    characters, up to and including the first newline. *)
Fixpoint fgets (n : nat) (file : list Z) : list Z * list Z :=
  match n, file with
  | S n', c :: rest =>
      if decide (c = 10) then ([c], rest)
      else let r := fgets n' rest in (c :: r.1, r.2)
  | _, _ => ([], file)
  end.

(** [word[strcspn(word, "\r\n")] = 0]: the string in the buffer ends
    before the first carriage return, newline or NUL. *)
Fixpoint strip (chunk : list Z) : cstring :=
  match chunk with
  | c :: rest =>
      if decide (c = 13 ∨ c = 10 ∨ c = 0) then [] else c :: strip rest
  | [] => []
  end.

(** The words the [while] loop of [main] passes to [insert_word]; every
    [fgets] takes at least one character, so the length of the file
    bounds the number of rounds. *)
Fixpoint read_words (rounds : nat) (file : list Z) : list cstring :=
  match rounds with
  | O => []
  | S rounds' =>
      match file with
      | [] => []
      | _ :: _ =>
          let r := fgets (Z.to_nat (MAX_WORD - 1)) file in
          strip r.1 :: read_words rounds' r.2
      end
  end.

Definition load_file (file : list Z) : State :=
  load_dictionary (read_words (length file) file).

(** What [main] returns and leaves: the exit status, the length printed
    after [Longest chain length:] when the start word is found, and the
    final state with the chains printed. *)
Definition main (file : list Z) (start : cstring) : result (Z * option Z * State) :=
  let st := load_file file in
  let fuel := Z.to_nat MAX_WORD in
  match find_word st (sort_string start) with
  | None => Ret (1, None, st)
  | Some p =>
      '(st1, max_len) ← longest_chain fuel st p;
      '(st2, _) ← print_chains fuel st1 p max_len main_chain 0;
      Ret (0, Some max_len, st2)
  end.

Lemma fgets_length n file : (length (fgets n file).1 ≤ n)%nat.
Proof.
  revert file. induction n as [|n IH]; intros [|c rest]; simpl; try lia.
  case_decide; simpl; [lia|]. specialize (IH rest). lia.
Qed.

Lemma fgets_split n file : (fgets n file).1 ++ (fgets n file).2 = file.
Proof.
  revert file. induction n as [|n IH]; intros [|c rest]; simpl; try done.
  case_decide; simpl; [done|]. by rewrite IH.
Qed.

Lemma fgets_progress n c rest :
  (length (fgets (S n) (c :: rest)).2 ≤ length rest)%nat.
Proof.
  simpl. case_decide; simpl; [done|].
  pose proof (fgets_split n rest) as E.
  apply (f_equal length) in E. rewrite length_app in E. lia.
Qed.

Lemma strip_length chunk : (length (strip chunk) ≤ length chunk)%nat.
Proof.
  induction chunk as [|c rest IH]; simpl; [done|].
  case_decide; simpl; lia.
Qed.

Lemma strip_clean chunk :
  Forall (fun c => c ≠ 13 ∧ c ≠ 10 ∧ c ≠ 0) (strip chunk).
Proof.
  induction chunk as [|c rest IH]; simpl; [done|].
  case_decide as D; [done|]. constructor; [|done]. lia.
Qed.

Lemma read_words_fit rounds file :
  Forall (fun word => Z.of_nat (length word) < MAX_WORD ∧
                      Forall (fun c => c ≠ 13 ∧ c ≠ 10 ∧ c ≠ 0) word)
         (read_words rounds file).
Proof.
  revert file. induction rounds as [|rounds IH]; intros file; [constructor|].
  destruct file as [|c rest]; [constructor|].
  cbn [read_words]. generalize (c :: rest). intros file.
  assert (Z.of_nat (Z.to_nat (MAX_WORD - 1)) < MAX_WORD) as B
    by (unfold MAX_WORD; lia).
  revert B. generalize (Z.to_nat (MAX_WORD - 1)). intros n B.
  constructor; [|apply IH].
  split; [|apply strip_clean].
  pose proof (strip_length (fgets n file).1).
  pose proof (fgets_length n file). lia.
Qed.

Lemma load_file_ok file : consistent (load_file file) ∧ unresolved (load_file file).
Proof.
  assert (Forall (fun word => Z.of_nat (length word) < MAX_WORD)
            (read_words (length file) file)) as F.
  { eapply Forall_impl; [apply read_words_fit|]. by intros word [? _]. }
  split; [by apply load_dictionary_consistent|].
  by destruct (load_from_invariants _ initial F) as (_ & _ & U);
    [constructor|apply wf_table_initial|constructor|].
Qed.

(** X9. Whatever the file holds, every word [main] inserts has fewer than
    [MAX_WORD] characters and no carriage return, newline or NUL, and the
    state after loading is consistent. *)
Theorem load_file_consistent file :
  Forall (fun word => Z.of_nat (length word) < MAX_WORD ∧
                      Forall (fun c => c ≠ 13 ∧ c ≠ 10 ∧ c ≠ 0) word)
         (read_words (length file) file) ∧
  consistent (load_file file) ∧ unresolved (load_file file).
Proof.
  pose proof (read_words_fit (length file) file) as F.
  split; [done|].
  assert (Forall (fun word => Z.of_nat (length word) < MAX_WORD)
            (read_words (length file) file)) as F'.
  { eapply Forall_impl; [done|]. by intros word [? _]. }
  split; [by apply load_dictionary_consistent|].
  by destruct (load_from_invariants _ initial F') as (_ & _ & U);
    [constructor|apply wf_table_initial|constructor|].
Qed.

Lemma fgets_line n pre rest :
  (length pre < n)%nat → Forall (fun c => c ≠ 10) pre →
  fgets n (pre ++ 10 :: rest) = (pre ++ [10], rest).
Proof.
  revert n. induction pre as [|c pre IH]; intros [|n] Lt F; simpl in *; try lia.
  - done.
  - apply Forall_cons in F as [Ne F].
    rewrite decide_False by done. rewrite IH by (done || lia). done.
Qed.

Lemma strip_line l x tl :
  Forall (fun c => c ≠ 13 ∧ c ≠ 10 ∧ c ≠ 0) l → x = 13 ∨ x = 10 ∨ x = 0 →
  strip (l ++ x :: tl) = l.
Proof.
  intros F X. induction F as [|c l C F IH]; simpl.
  - by rewrite decide_True.
  - rewrite decide_False by lia. by rewrite IH.
Qed.

Lemma read_words_S rounds c rest :
  read_words (S rounds) (c :: rest) =
  strip (fgets (Z.to_nat (MAX_WORD - 1)) (c :: rest)).1
  :: read_words rounds (fgets (Z.to_nat (MAX_WORD - 1)) (c :: rest)).2.
Proof. reflexivity. Qed.

Lemma read_lines rounds eol lines :
  eol = [10] ∨ eol = [13; 10] →
  Forall (fun l => Z.of_nat (length l + length eol) < MAX_WORD ∧
                   Forall (fun c => c ≠ 13 ∧ c ≠ 10 ∧ c ≠ 0) l) lines →
  (length lines ≤ rounds)%nat →
  read_words rounds (flat_map (fun l => l ++ eol) lines) = lines.
Proof.
  intros Eol F. revert rounds.
  induction F as [|l lines [Fit Clean] F IH]; intros rounds Le.
  { by destruct rounds. }
  destruct rounds as [|rounds]; [simpl in Le; lia|].
  cbn [flat_map].
  set (rest := flat_map (fun l => l ++ eol) lines) in *.
  assert (∃ pre x, (l ++ eol) ++ rest = pre ++ 10 :: rest ∧
                   (length pre < Z.to_nat (MAX_WORD - 1))%nat ∧
                   Forall (fun c => c ≠ 10) pre ∧
                   pre ++ [10] = l ++ x :: drop 1 eol ∧
                   (x = 13 ∨ x = 10 ∨ x = 0)) as (pre & x & E & Lt & NoLf & Ep & X).
  { assert (Forall (fun c => c ≠ 10) l) as Nl.
    { eapply Forall_impl; [done|]. simpl. intros; lia. }
    destruct Eol as [->| ->].
    - exists l, 10. split_and!; try done.
      + by rewrite <- app_assoc.
      + simpl in Fit. unfold MAX_WORD in *. lia.
      + by right; left.
    - exists (l ++ [13]), 13. split_and!.
      + by rewrite <- !app_assoc.
      + rewrite length_app. simpl in *. unfold MAX_WORD in *. lia.
      + apply Forall_app. split; [done|]. by repeat constructor.
      + by rewrite <- app_assoc.
      + by left. }
  rewrite E.
  assert (pre ++ 10 :: rest = (hd 10 (pre ++ [10])) :: tl (pre ++ 10 :: rest)) as Ec
    by (by destruct pre).
  rewrite Ec, read_words_S, <- Ec.
  rewrite fgets_line by done. cbn [fst snd].
  rewrite Ep, strip_line by done.
  f_equal. apply IH. simpl in Le. lia.
Qed.

Lemma flat_map_length_ge {A} (f : A → list Z) (l : list A) :
  (∀ x, (1 ≤ length (f x))%nat) → (length l ≤ length (flat_map f l))%nat.
Proof.
  intros Pos. induction l as [|x l IH]; simpl; [done|].
  rewrite length_app. specialize (Pos x). lia.
Qed.

(** X10. Round trip of reading: a file of lines, each with its newline (or
    each with carriage return and newline), short enough for the buffer
    and free of those characters, is read back as exactly its lines. *)
Theorem read_words_round_trip eol lines :
  eol = [10] ∨ eol = [13; 10] →
  Forall (fun l => Z.of_nat (length l + length eol) < MAX_WORD ∧
                   Forall (fun c => c ≠ 13 ∧ c ≠ 10 ∧ c ≠ 0) l) lines →
  let file := flat_map (fun l => l ++ eol) lines in
  read_words (length file) file = lines ∧
  heap (load_file file) = map entry_of lines.
Proof.
  intros Eol F file.
  assert (read_words (length file) file = lines) as E.
  { apply read_lines; [done..|]. apply flat_map_length_ge.
    intros l. rewrite length_app. destruct Eol as [->| ->]; simpl; lia. }
  split; [done|].
  unfold load_file. by rewrite E, load_dictionary_heap.
Qed.

Lemma read_words_round_trip_witness :
  let file := flat_map (fun l => l ++ [13; 10]) [str "sail"; str ""; str "nails"] in
  read_words (length file) file = [str "sail"; str ""; str "nails"] ∧
  heap (load_file file) = map entry_of [str "sail"; str ""; str "nails"].
Proof.
  apply (read_words_round_trip [13; 10] [str "sail"; str ""; str "nails"]).
  - by right.
  - repeat constructor; by vm_compute.
Defined.

(** ** [main] *)

Lemma load_from_output words st :
  output (fold_left (fun st word => insert_word word st) words st) = output st ∧
  expansions (fold_left (fun st word => insert_word word st) words st)
  = expansions st.
Proof.
  revert st. induction words as [|word words IH]; intros st; simpl; [done|].
  by destruct (IH (insert_word word st)) as [-> ->].
Qed.

Lemma load_file_heap file :
  heap (load_file file) = map entry_of (read_words (length file) file).
Proof. apply load_dictionary_heap. Qed.

Lemma load_file_fuel file p w :
  heap (load_file file) !! p = Some w →
  max_length (load_file file) - Word.length w < Z.of_nat (Z.to_nat MAX_WORD).
Proof.
  intros L. destruct (load_file_ok file) as [(H & _) _].
  pose proof (max_length_lt _ H).
  pose proof (wf_word_length_nonneg w (wf_heap_lookup _ _ _ H L)).
  unfold MAX_WORD in *. lia.
Qed.

(** The run of [main] from the entry [p] found for the start word. *)
Lemma main_run file start p :
  find_word (load_file file) (sort_string start) = Some p →
  ∃ w st1 r w1 fuel,
    heap (load_file file) !! p = Some w ∧ Word.original w ≡ₚ start ∧
    consistent st1 ∧ same_index (load_file file) st1 ∧ output st1 = [] ∧
    heap st1 !! p = Some w1 ∧ Word.original w1 = Word.original w ∧
    Word.dp w1 = r ∧ r ≠ -1 ∧ is_longest st1 p r ∧
    max_length st1 - Word.length w1 < Z.of_nat fuel ∧
    main file start =
      Ret (0, Some r, emits (lines_of st1 [] (enum fuel st1 p r 0)) st1).
Proof.
  intros F. destruct (load_file_ok file) as [C U].
  pose proof F as (w & L & Es)%find_word_Some.
  pose proof (load_file_fuel file p w L) as Fu.
  destruct (longest_chain_is_longest _ p w _ C L Fu)
    as (st1 & r & E1 & C1 & Ev & D & N & Lg).
  pose proof Ev as (I & O & _).
  destruct (same_index_lookup _ _ _ _ I L) as (w1 & L1 & (Eo & _ & El)).
  pose proof C1 as (H1 & _ & _).
  assert (max_length st1 - Word.length w1 < Z.of_nat (Z.to_nat MAX_WORD)) as Fu1.
  { by rewrite (max_length_same_index _ _ I), El. }
  destruct (print_chains_any st1 p w1 (Z.to_nat MAX_WORD) main_chain r H1 L1)
    as (chain' & E2 & _); [unfold main_chain; by rewrite length_replicate|done|].
  exists w, st1, r, w1, (Z.to_nat MAX_WORD). split_and!; try done.
  - apply sort_string_eq_perm. destruct C as (H & _).
    by destruct (wf_heap_lookup _ _ _ H L) as (<- & _).
  - rewrite O. unfold load_file, load_dictionary.
    by destruct (load_from_output (read_words (length file) file) initial) as [-> _].
  - by rewrite <- (dp_at_lookup st1 p w1 L1).
  - by apply (is_longest_same_index (load_file file) st1).
  - unfold main. rewrite F. unfold mbind, result_bind. by rewrite E1, E2.
Qed.


Lemma spelling_same_index st st' q :
  same_index st st' → spelling st' q = spelling st q.
Proof.
  intros I. unfold spelling. destruct (heap st !! q) as [w|] eqn:L.
  - destruct (same_index_lookup _ _ _ _ I L) as (w' & -> & (E & _)).
    simpl. by rewrite E.
  - destruct (heap st' !! q) as [w'|] eqn:L'; [|done].
    destruct (same_index_lookup_r _ _ _ _ I L') as (w & ? & _). congruence.
Qed.

Lemma transition_same_index st st' a b :
  same_index st st' → transition st a b → transition st' a b.
Proof.
  intros I (c & q & C & F & Sp). exists c, q. split_and!; [lia..| |].
  - by rewrite (find_word_same_index st st').
  - by rewrite (spelling_same_index st st').
Qed.

Lemma adjacent_impl {A} (R R' : A → A → Prop) l :
  (∀ a b, R a b → R' a b) → adjacent R l → adjacent R' l.
Proof.
  intros Imp. induction l as [|a l IH]; simpl; [done|].
  intros [Hd Tl]. split; [|by apply IH]. destruct l; [done|by apply Imp].
Qed.

Lemma chain_from_entries st p l :
  chain_from st p l → Forall (fun q => is_Some (heap st !! q)) l.
Proof.
  induction 1 as [p w L|p q l (w & c & L & _) Ch IH].
  - by repeat constructor.
  - by constructor.
Qed.

(** The state [main] ends in, for stating examples. *)
Definition main_state (file : list Z) (start : cstring) : State :=
  match main file start with
  | Ret (_, _, st) => st
  | _ => initial
  end.

(** X12. When [main] exits with status 0 and length [r], it has printed at
    least one line; every line has [r] words, all read from the file,
    each a derived anagram of the one before; and every line starts with
    the last word of the file that is an anagram of the start word,
    which need not be the start word itself. *)
Theorem main_prints_chains file start r st' :
  main file start = Ret (0, Some r, st') →
  let words := read_words (length file) file in
  output st' ≠ [] ∧
  ∃ i first,
    words !! i = Some first ∧ first ≡ₚ start ∧
    (∀ j word, words !! j = Some word → word ≡ₚ start → (j ≤ i)%nat) ∧
    ∀ line, line ∈ output st' →
      Z.of_nat (length line) = r ∧ head line = Some first ∧
      adjacent derives line ∧ Forall (fun x => x ∈ words) line.
Proof.
  intros E words.
  destruct (find_word (load_file file) (sort_string start)) as [p|] eqn:F.
  2:{ unfold main in E. by rewrite F in E. }
  destruct (main_run file start p F)
    as (w & st1 & r0 & w1 & fuel & L & P & C1 & I & O & L1 & Eo & D & N & Lg & Fu & E').
  rewrite E' in E. injection E as <- <-.
  pose proof C1 as (H1 & T1 & M1).
  assert (Out : output (emits (lines_of st1 [] (enum fuel st1 p r0 0)) st1)
                = lines_of st1 [] (enum fuel st1 p r0 0)).
  { simpl. by rewrite O. }
  rewrite Out. split.
  - destruct Lg as [(l & Ch & Len) _].
    destruct (chain_from_walk _ _ _ Ch) as [cs W].
    pose proof (enum_complete st1 r0 H1 M1 p cs l W fuel 0 w1 L1) as In.
    intros Em. unfold lines_of in Em. apply fmap_nil_inv in Em.
    rewrite Em in In. eapply elem_of_nil, In; [congruence|lia|lia|done].
  - destruct (load_file_ok file) as [(H & T & _) _].
    pose proof F as (w0 & L0 & Es & Max)%(find_word_spec _ _ _ T).
    assert (w0 = w) as -> by congruence.
    assert (Wd : ∀ q wq, heap (load_file file) !! q = Some wq →
                         words !! q = Some (Word.original wq)).
    { intros q wq Lq. rewrite load_file_heap, list_lookup_fmap in Lq.
      fold words in Lq. destruct (words !! q) as [word|]; [|done].
      by injection Lq as <-. }
    exists p, (Word.original w). split_and!; [by apply Wd|done| |].
    + intros j word Lj Pj. apply (Max j (entry_of word)).
      * by rewrite load_file_heap, list_lookup_fmap; fold words; rewrite Lj.
      * simpl. by apply sort_string_eq_perm.
    + intros line (x & In & ->)%elem_of_lines_of. simpl.
      destruct (enum_sound st1 r0 _ p w1 0 x L1 In) as (W & Len & _).
      pose proof (walk_chain_from _ _ _ _ W) as Ch.
      split_and!.
      * rewrite length_map. lia.
      * destruct (chain_from_head _ _ _ Ch) as [l' ->]. simpl.
        by rewrite (spelling_lookup st1 p w1 L1), Eo.
      * by eapply walk_derives.
      * apply Forall_fmap. eapply Forall_impl; [by eapply chain_from_entries|].
        intros q [wq Lq]. simpl.
        rewrite (spelling_same_index (load_file file) st1) by done.
        destruct (same_index_lookup_r _ _ _ _ I Lq) as (wq0 & Lq0 & _).
        rewrite (spelling_lookup _ q wq0 Lq0).
        by eapply list_elem_of_lookup_2, Wd.
Qed.

Lemma main_prints_chains_witness :
  let file := flat_map (fun l => l ++ [10]) [str "sail"; str "nails"; str "aliens"] in
  let words := read_words (length file) file in
  output (main_state file (str "lisa")) ≠ [] ∧
  ∃ i first,
    words !! i = Some first ∧ first ≡ₚ str "lisa" ∧
    (∀ j word, words !! j = Some word → word ≡ₚ str "lisa" → (j ≤ i)%nat) ∧
    ∀ line, line ∈ output (main_state file (str "lisa")) →
      Z.of_nat (length line) = 3 ∧ head line = Some first ∧
      adjacent derives line ∧ Forall (fun x => x ∈ words) line.
Proof.
  apply (main_prints_chains
           (flat_map (fun l => l ++ [10]) [str "sail"; str "nails"; str "aliens"])
           (str "lisa") 3).
  by vm_compute.
Defined.

(** X13. When [main] exits with status 0 and length [r], no sequence of words
    linked by transitions of the index from the first word printed is
    longer than [r], and every such sequence of [r] words is printed. *)
Theorem main_prints_all_longest file start r st' :
  main file start = Ret (0, Some r, st') →
  ∀ printed_line ws,
    printed_line ∈ output st' → head ws = head printed_line →
    adjacent (transition (load_file file)) ws →
    Z.of_nat (length ws) ≤ r ∧ (Z.of_nat (length ws) = r → ws ∈ output st').
Proof.
  intros E line ws In Hd Adj.
  destruct (find_word (load_file file) (sort_string start)) as [p|] eqn:F.
  2:{ unfold main in E. by rewrite F in E. }
  destruct (main_run file start p F)
    as (w & st1 & r0 & w1 & fuel & L & P & C1 & I & O & L1 & Eo & D & N & Lg & Fu & E').
  rewrite E' in E. injection E as <- <-.
  pose proof C1 as (H1 & T1 & M1).
  assert (Out : output (emits (lines_of st1 [] (enum fuel st1 p r0 0)) st1)
                = lines_of st1 [] (enum fuel st1 p r0 0)).
  { simpl. by rewrite O. }
  rewrite Out in *.
  apply elem_of_lines_of in In as (x & In & ->). simpl in Hd.
  destruct (enum_sound st1 r0 _ p w1 0 x L1 In) as (W & _ & _).
  destruct (chain_from_head _ _ _ (walk_chain_from _ _ _ _ W)) as [l' El].
  rewrite El in Hd. simpl in Hd. rewrite (spelling_lookup st1 p w1 L1) in Hd.
  destruct (word_chain_path st1 H1 ws p w1 L1 Hd) as (path & Ch & ->).
  { eapply adjacent_impl; [|done]. intros a b. by apply transition_same_index. }
  rewrite length_map. destruct Lg as [_ Up]. split; [by apply Up|].
  intros Len. destruct (chain_from_walk _ _ _ Ch) as [cs Wp].
  apply elem_of_lines_of. exists (cs, path). split; [|done].
  apply (enum_complete st1 r0 H1 M1 p cs path Wp _ 0 w1 L1); [congruence|lia|lia|done].
Qed.

Lemma main_prints_all_longest_witness :
  let file := flat_map (fun l => l ++ [10]) [str "a"; str "ab"; str "ac"] in
  Z.of_nat (length [str "a"; str "ac"]) ≤ 2 ∧
  (Z.of_nat (length [str "a"; str "ac"]) = 2 →
   [str "a"; str "ac"] ∈ output (main_state file (str "a"))).
Proof.
  apply (main_prints_all_longest
           (flat_map (fun l => l ++ [10]) [str "a"; str "ab"; str "ac"])
           (str "a") 2) with (printed_line := [str "a"; str "ab"]).
  - by vm_compute.
  - vm_compute. apply list_elem_of_here.
  - reflexivity.
  - split; [|done]. exists 99, 2%nat. split; [lia|]. by vm_compute.
Defined.

(** ** More on resolution and enumeration *)




(** X15. [print_chains] prints nothing when [max_len] is not the length of a
    chain that ends at an entry without successors: in particular when
    it is below 1 or above the stored value of the entry. *)
Theorem print_chains_out_of_range st p w fuel max_len :
  consistent st → heap st !! p = Some w → Word.dp w ≠ -1 →
  max_length st - Word.length w < Z.of_nat fuel →
  max_len < 1 ∨ Word.dp w < max_len →
  ∃ chain', print_chains fuel st p max_len main_chain 0 = Ret (st, chain').
Proof.
  intros (H & T & M) L D Fu Out.
  destruct (print_chains_any st p w fuel main_chain max_len H L)
    as (chain' & E & _); [unfold main_chain; by rewrite length_replicate|done|].
  exists chain'. rewrite E. f_equal. f_equal.
  assert (enum fuel st p max_len 0 = []) as ->.
  { destruct (enum fuel st p max_len 0) as [|x l] eqn:En; [done|]. exfalso.
    destruct (enum_sound st max_len fuel p w 0 x L) as (W & Len & _).
    { rewrite En. apply list_elem_of_here. }
    pose proof (walk_length _ _ _ _ W) as Wl.
    pose proof (chain_le_dp st p x.2 M (walk_chain_from _ _ _ _ W)) as Le.
    rewrite (dp_at_lookup st p w L) in Le. specialize (Le D). lia. }
  apply emits_nil.
Qed.

Lemma print_chains_out_of_range_witness :
  ∃ chain', print_chains 3 demo_resolved 0%nat 4 main_chain 0
            = Ret (demo_resolved, chain').
Proof.
  apply (print_chains_out_of_range demo_resolved 0%nat
           (Word.mk (str "sail") (sort_string (str "sail")) 4 3) 3 4).
  - apply demo_resolved_consistent.
  - by vm_compute.
  - by vm_compute.
  - by vm_compute.
  - right. by vm_compute.
Defined.

Lemma lex_lt_irrefl cs : ¬ lex_lt cs cs.
Proof.
  induction cs as [|c cs IH]; intros Lt; inversion Lt; subst; [lia|done].
Qed.

Lemma lex_sorted_NoDup (l : list (list Z)) : StronglySorted lex_lt l → NoDup l.
Proof.
  induction 1 as [|x l _ IH All]; constructor; [|done].
  intros In. rewrite Forall_forall in All.
  by apply (lex_lt_irrefl x), All.
Qed.

(** Two chains from the same entry with the same spellings insert the
    same characters. *)
Lemma walk_spelling_inj st :
  wf_heap st →
  ∀ p cs l, walk st p cs l → ∀ cs' l', walk st p cs' l' →
    map (spelling st) l = map (spelling st) l' → cs = cs'.
Proof.
  intros H p cs l W.
  induction W as [p w L|p w c q cs l L C F W IH]; intros cs' l' W' E.
  - inversion W' as [|? ? ? ? ? l0 ? ? ? W0]; subst; [done|].
    apply walk_length in W0. destruct l0; simpl in *; [lia|done].
  - inversion W' as [|? w' c' q' cs0 l0 L' C' F' W0]; subst.
    { apply walk_length in W. destruct l; simpl in *; [lia|done]. }
    assert (w' = w) as -> by congruence.
    destruct (chain_from_head _ _ _ (walk_chain_from _ _ _ _ W)) as [l1 ->].
    destruct (chain_from_head _ _ _ (walk_chain_from _ _ _ _ W0)) as [l2 ->].
    simpl in E. injection E as Eq Et.
    pose proof F as (wq & Lq & Es)%find_word_Some.
    pose proof F' as (wq' & Lq' & Es')%find_word_Some.
    rewrite (spelling_lookup st q wq Lq), (spelling_lookup st q' wq' Lq') in Eq.
    pose proof (wf_heap_lookup _ _ _ H Lq) as (Ec & _).
    pose proof (wf_heap_lookup _ _ _ H Lq') as (Ec' & _).
    assert (c' = c) as ->.
    { apply (merge_insert_inj c' c (take (Z.to_nat (Word.length w)) (Word.sorted w))).
      unfold new_sorted in Es, Es'. congruence. }
    assert (q' = q) as -> by congruence.
    f_equal. apply (IH cs0 (q :: l2) W0). simpl. by rewrite Et.
Qed.

(** X16. No chain is printed twice. *)
Theorem print_chains_no_duplicates st p w fuel max_len :
  wf_heap st → heap st !! p = Some w →
  max_length st - Word.length w < Z.of_nat fuel →
  ∃ st' chain' lines,
    print_chains fuel st p max_len main_chain 0 = Ret (st', chain') ∧
    output st' = output st ++ lines ∧ NoDup lines.
Proof.
  intros H L Fu.
  destruct (print_chains_any st p w fuel main_chain max_len H L)
    as (chain' & E & _); [unfold main_chain; by rewrite length_replicate|done|].
  eexists _, chain', _. split; [done|]. split; [done|].
  pose proof (lex_sorted_NoDup _ (enum_sorted st max_len fuel p 0)) as Nd.
  unfold lines_of. apply NoDup_fmap_2_strong; [|by eapply NoDup_fmap_1].
  intros x y Inx Iny Exy. simpl in Exy.
  destruct (enum_sound st max_len fuel p w 0 x L Inx) as (Wx & _).
  destruct (enum_sound st max_len fuel p w 0 y L Iny) as (Wy & _).
  pose proof (walk_spelling_inj st H p _ _ Wx _ _ Wy Exy) as Ecs.
  destruct x as [cs l], y as [cs' l']. simpl in *. subst cs'.
  f_equal. by eapply walk_functional.
Qed.

Lemma print_chains_no_duplicates_witness :
  ∃ st' chain' lines,
    print_chains 2 fork_resolved 0%nat 2 main_chain 0 = Ret (st', chain') ∧
    output st' = output fork_resolved ++ lines ∧ NoDup lines.
Proof.
  apply (print_chains_no_duplicates fork_resolved 0%nat
           (Word.mk (str "a") (sort_string (str "a")) 1 2) 2 2).
  - apply fork_resolved_consistent.
  - by vm_compute.
  - by vm_compute.
Defined.

(** ** The work of the resolver *)

(** Number of entries whose [dp] is set. *)
Definition resolved_count (st : State) : nat :=
  length (filter (fun w => Word.dp w ≠ -1) (heap st)).

Lemma printable_length : length printable = 94%nat.
Proof. by vm_compute. Qed.

Lemma fold_left_result_inv_pre {A} (f : result A → Z → result A)
    (P : list Z → A → Prop) cs :
  (∀ c, f Fault c = Fault) → (∀ c, f NoFuel c = NoFuel) →
  (∀ pre c a a', P pre a → f (Ret a) c = Ret a' → P (pre ++ [c]) a') →
  ∀ pre a a', P pre a → fold_left f cs (Ret a) = Ret a' → P (pre ++ cs) a'.
Proof.
  intros HF HN Step. induction cs as [|c cs IH]; simpl; intros pre a a' Pa.
  - intros [= <-]. by rewrite app_nil_r.
  - destruct (f (Ret a) c) as [b| |] eqn:E.
    + intros Eb. rewrite (cons_middle c pre cs), app_assoc.
      eapply IH; [|done]. by eapply Step.
    + by rewrite fold_left_Fault.
    + by rewrite fold_left_NoFuel.
Qed.

Lemma resolved_count_alter (l : list Word.t) p w v :
  l !! p = Some w → Word.dp w = -1 → v ≠ -1 →
  length (filter (fun w => Word.dp w ≠ -1)
            (alter (fun w => Word.mk (Word.original w) (Word.sorted w)
                               (Word.length w) v) p l))
  = S (length (filter (fun w => Word.dp w ≠ -1) l)).
Proof.
  set (f := fun w => Word.mk (Word.original w) (Word.sorted w) (Word.length w) v).
  revert p. induction l as [|x l IH]; intros [|p] L D V; try done.
  - injection L as ->. change (alter f 0%nat (w :: l)) with (f w :: l).
    rewrite filter_cons_True by done.
    rewrite (filter_cons_False _ w) by (intros N; by apply N). done.
  - change (alter f (S p) (x :: l)) with (x :: alter f p l).
    rewrite !filter_cons. destruct (decide (Word.dp x ≠ -1)); simpl;
      by rewrite (IH p L D V).
Qed.

(** Invariant of the loop of [longest_chain] for the count of
    expansions, after the characters [pre]. *)
Definition counted (st : State) (p : ptr) (pre : list Z) (a : State * Z) : Prop :=
  same_index st a.1 ∧ dp_at a.1 p = -1 ∧ 1 ≤ a.2 ∧
  (expansions a.1 + 94 * resolved_count st
   = expansions st + length pre + 94 * resolved_count a.1)%nat.

Lemma longest_chain_expansions fuel :
  ∀ st p st' r,
    wf_heap st → longest_chain fuel st p = Ret (st', r) →
    (expansions st' + 94 * resolved_count st
     = expansions st + 94 * resolved_count st')%nat.
Proof.
  induction fuel as [|fuel IH]; intros st p st' r H; [done|].
  cbn [longest_chain]. unfold mbind, result_bind, read.
  destruct (heap st !! p) as [w|] eqn:L; [|done].
  case_decide as D.
  { by intros [= <- <-]. }
  assert (Word.dp w = -1) as Dw
    by (destruct (decide (Word.dp w = -1)); [done|by destruct D]).
  destruct (fold_left _ _ _) as [[st2 m]| |] eqn:E; [|done..].
  intros [= <- <-].
  assert (counted st p ([] ++ printable) (st2, m)) as (I & Dp & One & Cnt).
  { revert E.
    apply (fold_left_result_inv_pre _ (counted st p) printable
             (fun _ => eq_refl) (fun _ => eq_refl)).
    2:{ split_and!; cbn [fst snd]; [apply same_index_refl| |lia|simpl; lia].
        by rewrite (dp_at_lookup st p w L). }
    intros pre c [st1 m1] [st3 m3] (I1 & D1 & O1 & C1); cbn [fst snd] in *.
    unfold chain_step, mbind, result_bind, read.
    destruct (same_index_lookup _ _ _ _ I1 L) as (w1 & L1 & E1).
    rewrite L1.
    destruct (find_word (tick st1) (new_sorted w1 c)) as [q|] eqn:F.
    2:{ intros [= <- <-]. split_and!; cbn [fst snd]; try done.
        rewrite length_app. simpl. unfold resolved_count in *. simpl. lia. }
    destruct (longest_chain fuel (tick st1) q) as [[st4 r4]| |] eqn:E4; [|done..].
    intros [= <- <-].
    pose proof (wf_heap_same_index _ _ I1 H) as H1.
    change (find_word st1 (new_sorted w1 c) = Some q) in F.
    destruct (found_length st1 w1 c q H1 (wf_heap_lookup _ _ _ H1 L1) F)
      as (wq & Lq & _ & El).
    destruct (longest_chain_keeps fuel (tick st1) q wq st4 r4 H1 Lq E4)
      as (_ & _ & Fr4).
    pose proof (IH (tick st1) q st4 r4 H1 E4) as C4.
    split_and!; cbn [fst snd].
    - eapply same_index_trans; [done|].
      eapply same_index_trans; [apply same_index_tick|].
      by eapply longest_chain_same_index.
    - rewrite (Fr4 p w1); [done|done|lia].
    - destruct (Z.gtb_spec (1 + r4) m1); lia.
    - rewrite length_app. simpl. unfold resolved_count in *. simpl in *. lia. }
  cbn [fst snd] in *. simpl in Cnt. rewrite printable_length in Cnt.
  destruct (same_index_lookup _ _ _ _ I L) as (w2 & L2 & _).
  assert (resolved_count (set_dp p m st2) = S (resolved_count st2)) as R.
  { unfold resolved_count, set_dp; simpl.
    apply (resolved_count_alter _ p w2); [done| |lia].
    by rewrite <- (dp_at_lookup st2 p w2 L2). }
  rewrite R. simpl. lia.
Qed.

(** X17. Memoisation: a call of [longest_chain] makes exactly 94 lookups for
    every entry it resolves, and none for the entries already resolved;
    so it never makes more than 94 lookups per dictionary entry. *)
Theorem longest_chain_work st p st' r fuel :
  wf_heap st → longest_chain fuel st p = Ret (st', r) →
  (expansions st' + 94 * resolved_count st
   = expansions st + 94 * resolved_count st')%nat ∧
  (expansions st' ≤ expansions st + 94 * length (heap st))%nat.
Proof.
  intros H E. pose proof (longest_chain_expansions fuel st p st' r H E) as C.
  split; [done|].
  assert (resolved_count st' ≤ length (heap st))%nat.
  { destruct (longest_chain_same_index _ _ _ _ _ E) as [_ F].
    rewrite (Forall2_length _ _ _ F). unfold resolved_count.
    apply length_filter. }
  lia.
Qed.

Lemma longest_chain_work_witness :
  (expansions demo_resolved + 94 * resolved_count demo
   = expansions demo + 94 * resolved_count demo_resolved)%nat ∧
  (expansions demo_resolved ≤ expansions demo + 94 * length (heap demo))%nat.
Proof.
  apply (longest_chain_work demo 0%nat demo_resolved 3 3).
  - apply load_dictionary_consistent, short_words_fit. by vm_compute.
  - by vm_compute.
Defined.

Lemma step_same_index_rtc st st' p q :
  same_index st st' → rtc (step st') p q → rtc (step st) p q.
Proof.
  intros I R. induction R as [p|p q r S R IH]; [constructor|].
  econstructor 2; [|done].
  by apply (step_same_index st' st); [apply same_index_sym|].
Qed.

Lemma fold_left_result_inv_in {A} (f : result A → Z → result A) (P : A → Prop) cs :
  (∀ c, f Fault c = Fault) → (∀ c, f NoFuel c = NoFuel) →
  (∀ a c a', c ∈ cs → P a → f (Ret a) c = Ret a' → P a') →
  ∀ a a', P a → fold_left f cs (Ret a) = Ret a' → P a'.
Proof.
  intros HF HN. induction cs as [|c cs IH]; simpl; intros Step a a' Pa.
  - by intros [= <-].
  - destruct (f (Ret a) c) as [b| |] eqn:E.
    + apply IH.
      * intros a0 c0 a0' In. apply Step. by apply list_elem_of_further.
      * eapply Step; [apply list_elem_of_here|done..].
    + by rewrite fold_left_Fault.
    + by rewrite fold_left_NoFuel.
Qed.

(** X18. [longest_chain] sets the [dp] of entries reachable from its argument
    only: the rest of the dictionary stays as it was. *)
Theorem longest_chain_touches_reachable fuel st p st' r x :
  longest_chain fuel st p = Ret (st', r) →
  dp_at st' x ≠ dp_at st x → rtc (step st) p x.
Proof.
  revert st p st' r x.
  induction fuel as [|fuel IH]; intros st p st' r x; [done|].
  cbn [longest_chain]. unfold mbind, result_bind, read.
  destruct (heap st !! p) as [w|] eqn:L; [|done].
  case_decide as D.
  { by intros [= <- <-]. }
  destruct (fold_left _ _ _) as [[st2 m]| |] eqn:E; [|done..].
  intros [= <- <-] Ne.
  destruct (decide (x = p)) as [->|Nx]; [constructor|].
  rewrite dp_at_set_dp_ne in Ne by done.
  clear Nx. revert x Ne.
  cut (same_index st (st2, m).1 ∧
       ∀ x, dp_at (st2, m).1 x ≠ dp_at st x → rtc (step st) p x);
    [by intros []|].
  revert E.
  apply (fold_left_result_inv_in _
           (fun a => same_index st a.1 ∧
                     ∀ x, dp_at a.1 x ≠ dp_at st x → rtc (step st) p x)
           printable (fun _ => eq_refl) (fun _ => eq_refl)).
  2:{ split; [apply same_index_refl|]. by intros x []. }
  intros [st1 m1] c [st3 m3] Inc [I1 Ch1]; cbn [fst snd] in *.
  unfold chain_step, mbind, result_bind, read.
  destruct (same_index_lookup _ _ _ _ I1 L) as (w1 & L1 & E1).
  rewrite L1.
  destruct (find_word (tick st1) (new_sorted w1 c)) as [q|] eqn:F.
  2:{ by intros [= <- <-]. }
  destruct (longest_chain fuel (tick st1) q) as [[st4 r4]| |] eqn:E4; [|done..].
  intros [= <- <-].
  assert (same_index st (tick st1)) as It
    by (eapply same_index_trans; [done|apply same_index_tick]).
  split.
  - eapply same_index_trans; [done|]. by eapply longest_chain_same_index.
  - intros x Ne.
    destruct (decide (dp_at st4 x = dp_at st1 x)) as [Eq|Nq].
    + apply Ch1. by rewrite <- Eq.
    + econstructor 2.
      * exists w, c. split_and!; [done..|].
        rewrite <- (new_sorted_same_entry w w1) by done.
        by rewrite <- (find_word_same_index st (tick st1)).
      * eapply step_same_index_rtc; [done|]. by eapply IH.
Qed.

Lemma longest_chain_touches_reachable_witness : rtc (step demo) 1%nat 2%nat.
Proof.
  apply (longest_chain_touches_reachable 2 demo 1%nat (resolved_from 2 demo 1) 2 2%nat).
  - by vm_compute.
  - by vm_compute.
Defined.
